(** * PySnake: the game state of [SnakeBoard] and the tick delay of [main]

    A shallow embedding of [src/PySnake.py] and [src/settings.py].

    - Python integers are [Z]; a tuple of two integers is [Z * Z].
    - A Python list is a [list]; indexing follows Python: an index [i] with
      [0 <= i < len] is position [i], an index with [-len <= i < 0] is
      position [len + i], and anything else raises [IndexError].
    - The board is a list of rows of tiles, read and written by index.
    - [random.randint] is replaced by the list of the values it returns: each
      element of the list is the pair of one [random.randint(0, row - 1)] and
      the following [random.randint(0, col - 1)].  A run that asks for more
      draws than the list holds has the result [NoDraw].
    - A method that mutates [self] is a function from the state to the new
      state; a method that can raise returns a [result].
    - A Python [float] is a binary64 float; the power [x ** n] is a parameter
      of the definitions that use it. *)

From Stdlib Require Import ZArith Lia Floats.
From stdpp Require Import base tactics option numbers list strings.

Set Warnings "-inexact-float".
#[local] Open Scope Z_scope.

(** ** Python values and results *)

(** The exceptions that the modelled code can raise. *)
Inductive exn : Set :=
| InvalidGridSizeException
| IndexError
| ValueError
| OverflowError.

(** The result of running a piece of code on a finite list of draws. *)
Inductive result (A : Type) : Type :=
| Ok (a : A)
| Raise (e : exn)
| NoDraw.
Arguments Ok {A} a.
Arguments Raise {A} e.
Arguments NoDraw {A}.

Definition bind {A B : Type} (m : result A) (k : A → result B) : result B :=
  match m with
  | Ok a => k a
  | Raise e => Raise e
  | NoDraw => NoDraw
  end.

Notation "x ←? m ; k" := (bind m (λ x, k))
  (at level 20, m at level 100, k at level 200, right associativity,
   format "'[' x  ←?  m ;  '/' k ']'").
Notation "' p ←? m ; k" := (bind m (λ x, match x with p => k end))
  (at level 20, p pattern, m at level 100, k at level 200, right associativity).

(** What a call of [next] hands back: [True] on the two collision paths, and
    the implicit [None] of a function body that ends without [return]. *)
Inductive py_value : Set :=
| PyBool (b : bool)
| PyNone.

(** ** Python lists *)

Section PyList.
Context {A : Type}.

(** The position that index [i] denotes in [l], if any. *)
Definition py_pos (l : list A) (i : Z) : option nat :=
  let n := Z.of_nat (length l) in
  if (0 <=? i) && (i <? n) then Some (Z.to_nat i)
  else if (- n <=? i) && (i <? 0) then Some (Z.to_nat (n + i))
  else None.

(** [l[i]] *)
Definition py_getitem (l : list A) (i : Z) : result A :=
  match py_pos l i with
  | Some k => match l !! k with Some x => Ok x | None => Raise IndexError end
  | None => Raise IndexError
  end.

(** [l[i] = x] *)
Definition py_setitem (l : list A) (i : Z) (x : A) : result (list A) :=
  match py_pos l i with
  | Some k => Ok (<[k := x]> l)
  | None => Raise IndexError
  end.

(** [l.pop(0)], keeping the list only. *)
Definition py_pop0 (l : list A) : result (list A) :=
  match l with
  | [] => Raise IndexError
  | _ :: l' => Ok l'
  end.
End PyList.

(** [range(start, stop, step)] as the list of its values. *)
Definition py_range (start stop step : Z) : list Z :=
  let count :=
    if 0 <? step then (stop - start + step - 1) / step
    else if step <? 0 then (start - stop - step - 1) / (- step)
    else 0 in
  map (λ k, start + Z.of_nat k * step) (seq 0 (Z.to_nat count)).

(** A [for] loop whose body updates one value and may raise. *)
Fixpoint for_each {I S : Type} (body : I → S → result S) (l : list I) (s : S)
  : result S :=
  match l with
  | [] => Ok s
  | i :: l' => s' ←? body i s; for_each body l' s'
  end.

(** ** The board *)

(** The four strings a tile holds: ['S1'], ['S0'], ['A'] and ['N']. *)
Inductive tile : Set :=
| S1
| S0
| Apple
| Nothing.

#[global] Instance tile_eq_dec : EqDecision tile.
Proof. solve_decision. Defined.

Definition tile_eqb (a b : tile) : bool := bool_decide (a = b).

Abbreviation board := (list (list tile)).

(** [b[r][c]] *)
Definition board_get (b : board) (r c : Z) : result tile :=
  line ←? py_getitem b r; py_getitem line c.

(** [b[r][c] = v]: the row object [b[r]] is updated in place. *)
Definition board_set (b : board) (r c : Z) (v : tile) : result board :=
  line ←? py_getitem b r;
  line' ←? py_setitem line c v;
  py_setitem b r line'.

(** ** The state of a game *)

Record SnakeBoard : Type := mkSnakeBoard {
  _row : Z;
  _col : Z;
  _board : board;
  _snake_direction : Z * Z;
  _snake_row : Z;
  _snake_col : Z;
  _snake : list (Z * Z);
  _snake_length : Z;
  _end : bool;
  _apple_row : Z;
  _apple_col : Z;
  _move_lock : bool
}.

Definition set_board (s : SnakeBoard) (b : board) : SnakeBoard :=
  mkSnakeBoard (_row s) (_col s) b (_snake_direction s) (_snake_row s)
    (_snake_col s) (_snake s) (_snake_length s) (_end s) (_apple_row s)
    (_apple_col s) (_move_lock s).

Definition set_snake_direction (s : SnakeBoard) (d : Z * Z) : SnakeBoard :=
  mkSnakeBoard (_row s) (_col s) (_board s) d (_snake_row s) (_snake_col s)
    (_snake s) (_snake_length s) (_end s) (_apple_row s) (_apple_col s)
    (_move_lock s).

Definition set_end (s : SnakeBoard) (e : bool) : SnakeBoard :=
  mkSnakeBoard (_row s) (_col s) (_board s) (_snake_direction s) (_snake_row s)
    (_snake_col s) (_snake s) (_snake_length s) e (_apple_row s)
    (_apple_col s) (_move_lock s).

Definition set_apple (s : SnakeBoard) (r c : Z) : SnakeBoard :=
  mkSnakeBoard (_row s) (_col s) (_board s) (_snake_direction s) (_snake_row s)
    (_snake_col s) (_snake s) (_snake_length s) (_end s) r c (_move_lock s).

Definition set_move_lock (s : SnakeBoard) (l : bool) : SnakeBoard :=
  mkSnakeBoard (_row s) (_col s) (_board s) (_snake_direction s) (_snake_row s)
    (_snake_col s) (_snake s) (_snake_length s) (_end s) (_apple_row s)
    (_apple_col s) l.

(** The head, path and length fields that one tick rewrites together. *)
Definition set_snake (s : SnakeBoard) (r c : Z) (path : list (Z * Z)) (len : Z)
  : SnakeBoard :=
  mkSnakeBoard (_row s) (_col s) (_board s) (_snake_direction s) r c path len
    (_end s) (_apple_row s) (_apple_col s) (_move_lock s).

(** The getters of the class. *)
Definition get_apple (s : SnakeBoard) : Z * Z := (_apple_row s, _apple_col s).
Definition get_row (s : SnakeBoard) : Z := _row s.
Definition get_col (s : SnakeBoard) : Z := _col s.
Definition get_length (s : SnakeBoard) : Z := _snake_length s.
Definition get_direction (s : SnakeBoard) : Z * Z := _snake_direction s.
Definition get_path (s : SnakeBoard) : list (Z * Z) := _snake s.
Definition get_end (s : SnakeBoard) : bool := _end s.

(** ** [generate_apple] *)

(** The [while True] loop: draw a position until the tile there is ['N']. *)
Fixpoint generate_apple_loop (b : board) (draws : list (Z * Z))
  : result (Z * Z * list (Z * Z)) :=
  match draws with
  | [] => NoDraw
  | (apple_row, apple_col) :: draws' =>
      t ←? board_get b apple_row apple_col;
      if tile_eqb t Nothing then Ok (apple_row, apple_col, draws')
      else generate_apple_loop b draws'
  end.

Definition generate_apple (s : SnakeBoard) (draws : list (Z * Z))
  : result (SnakeBoard * list (Z * Z)) :=
  '(apple_row, apple_col, draws') ←? generate_apple_loop (_board s) draws;
  b ←? board_set (_board s) apple_row apple_col Apple;
  Ok (set_apple (set_board s b) apple_row apple_col, draws').

(** ** [__init__] *)

(** [SnakeBoard(row, col)].  The two attributes that [__init__] assigns only
    after the first use of the object ([_apple_row], [_apple_col], set by
    [generate_apple], and [_move_lock], set last) start at [0] and [false];
    nothing reads them before they are assigned. *)
Definition SnakeBoard_init (row col : Z) (draws : list (Z * Z))
  : result (SnakeBoard * list (Z * Z)) :=
  if (row <? 2) || (col <? 2) then Raise InvalidGridSizeException
  else
    let b := replicate (Z.to_nat row) (replicate (Z.to_nat col) Nothing) in
    match draws with
    | [] => NoDraw
    | (snake_row, snake_col) :: draws1 =>
        b1 ←? board_set b snake_row snake_col S1;
        let s := mkSnakeBoard row col b1 (0, 0) snake_row snake_col
                   [(snake_row, snake_col)] 1 false 0 0 false in
        '(s1, draws2) ←? generate_apple s draws1;
        Ok (set_move_lock s1 false, draws2)
    end.

(** ** [update_direction] *)

Definition direction_eqb (a b : Z * Z) : bool :=
  (fst a =? fst b) && (snd a =? snd b).

Definition update_direction (s : SnakeBoard) (direction : Z * Z) : SnakeBoard :=
  if _move_lock s then s
  else
    let s1 :=
      if direction_eqb (_snake_direction s) (0, 0)
      then set_snake_direction s direction else s in
    let '(h_direction, v_direction) := direction in
    if negb ((h_direction * -1 =? fst (_snake_direction s1))
             || (v_direction * -1 =? snd (_snake_direction s1)))
    then set_move_lock (set_snake_direction s1 direction) true
    else s1.

(** ** [next] *)

(** The body of the first loop: [self._board[self._snake[-i][0]][self._snake[-i][1]] = 'S0']. *)
Definition tag_segment (path : list (Z * Z)) (i : Z) (b : board) : result board :=
  segment ←? py_getitem path (- i);
  board_set b (fst segment) (snd segment) S0.

(** The body of the second loop: [self._board[self._snake[i][0]][self._snake[i][1]] = 'N']. *)
Definition clear_old (path : list (Z * Z)) (i : Z) (b : board) : result board :=
  empty ←? py_getitem path i;
  board_set b (fst empty) (snd empty) Nothing.

(** The part of [next] after the two collision tests and before the call of
    [generate_apple]: it returns [ate_apple] and the state reached. *)
Definition move_snake (s : SnakeBoard) (new_snake_row new_snake_col : Z)
  : result (bool * SnakeBoard) :=
  b1 ←? board_set (_board s) (_snake_row s) (_snake_col s) Nothing;
  let path1 := _snake s ++ [(new_snake_row, new_snake_col)] in
  path2 ←? (if Z.of_nat (length path1) >? _snake_length s + 1
            then py_pop0 path1 else Ok path1);
  t ←? board_get b1 new_snake_row new_snake_col;
  let ate_apple := tile_eqb t Apple in
  let len := if ate_apple then _snake_length s + 1 else _snake_length s in
  b2 ←? board_set b1 new_snake_row new_snake_col S1;
  b3 ←? for_each (tag_segment path2) (py_range 2 (len + 1) 1) b2;
  b4 ←? for_each (clear_old path2)
          (py_range (Z.of_nat (length path2) - len - 1) (-1) (-1)) b3;
  Ok (ate_apple, set_board (set_snake s new_snake_row new_snake_col path2 len) b4).

Definition next (s : SnakeBoard) (draws : list (Z * Z))
  : result (py_value * SnakeBoard * list (Z * Z)) :=
  let s := set_move_lock s false in
  let new_snake_row := _snake_row s + snd (_snake_direction s) in
  let new_snake_col := _snake_col s + fst (_snake_direction s) in
  if negb ((0 <=? new_snake_row) && (new_snake_row <? _row s))
     || negb ((0 <=? new_snake_col) && (new_snake_col <? _col s))
  then Ok (PyBool true, set_end s true, draws)
  else
    t ←? board_get (_board s) new_snake_row new_snake_col;
    if tile_eqb t S0 then Ok (PyBool true, set_end s true, draws)
    else
      '(ate_apple, s1) ←? move_snake s new_snake_row new_snake_col;
      if ate_apple : bool then
        '(s2, draws') ←? generate_apple s1 draws;
        Ok (PyNone, s2, draws')
      else Ok (PyNone, s1, draws).

(** ** The keys and [handle_events] *)

(** The four keys that [handle_events] forwards. *)
Inductive key : Set :=
| K_UP
| K_DOWN
| K_LEFT
| K_RIGHT.

#[global] Instance key_eq_dec : EqDecision key.
Proof. solve_decision. Defined.

Definition KEY_DICT (k : key) : Z * Z :=
  match k with
  | K_UP => (0, -1)
  | K_DOWN => (0, 1)
  | K_LEFT => (-1, 0)
  | K_RIGHT => (1, 0)
  end.

(** [handle_events] on a queue of arrow-key presses: one call of
    [update_direction] for each, in order. *)
Definition handle_events (s : SnakeBoard) (events : list key) : SnakeBoard :=
  foldl (λ s0 k, update_direction s0 (KEY_DICT k)) s events.

(** ** [settings.py] and the delay of [main] *)

Definition SPEED_CAP : Z := 250.
Definition STARTING_SPEED : Z := 500.
Definition ROW : Z := 12.
Definition COLUMN : Z := 12.

(** The conversion of an [int] to a [float], rounded to nearest even. *)
Definition py_float_of_int (z : Z) : float :=
  SF2Prim (binary_normalize prec emax z 0 false).

(** [int(x)] for a float [x]: the fractional part is dropped. *)
Definition py_int_of_float (x : float) : result Z :=
  match Prim2SF x with
  | S754_zero _ => Ok 0
  | S754_infinity _ => Raise OverflowError
  | S754_nan => Raise ValueError
  | S754_finite sign m e =>
      let magnitude := Z.shiftl (Z.pos m) e in
      Ok (if sign then - magnitude else magnitude)
  end.

Section Delay.
(** [x ** n] for a float [x] and an [int] [n] is the power function of the
    platform; it is a parameter here. *)
Variable float_pow : float → Z → float.

(** The two lines
    [if delay > SPEED_CAP: delay = int(STARTING_SPEED * (0.85 ** board.get_length()))]
    of the loop of [main]: the delay that the tick waits. *)
Definition tick_delay (delay : Z) (length : Z) : result Z :=
  if delay >? SPEED_CAP
  then py_int_of_float (py_float_of_int STARTING_SPEED * float_pow 0.85 length)%float
  else Ok delay.

(** The delays of successive ticks, given the length of the snake at each. *)
Fixpoint tick_delays (delay : Z) (lengths : list Z) : result (list Z) :=
  match lengths with
  | [] => Ok []
  | length :: lengths' =>
      delay' ←? tick_delay delay length;
      rest ←? tick_delays delay' lengths';
      Ok (delay' :: rest)
  end.
End Delay.

(** * Specification vocabulary *)

#[global] Instance exn_eq_dec : EqDecision exn.
Proof. solve_decision. Defined.

#[global] Instance result_eq_dec {A} `{EqDecision A} : EqDecision (result A).
Proof. solve_decision. Defined.

Definition in_grid (rows cols : Z) (p : Z * Z) : Prop :=
  (0 ≤ p.1 < rows) ∧ (0 ≤ p.2 < cols).

#[global] Instance in_grid_dec rows cols p : Decision (in_grid rows cols p).
Proof. unfold in_grid. apply _. Defined.

Definition wf_board (rows cols : Z) (b : board) : Prop :=
  Z.of_nat (length b) = rows ∧ Forall (λ line, Z.of_nat (length line) = cols) b.

(** [l[k:]] and [l[:k]] *)
Definition py_slice_from {A} (l : list A) (k : Z) : list A :=
  drop (Z.to_nat (if k <? 0 then Z.max 0 (Z.of_nat (length l) + k) else k)) l.

Definition py_slice_to {A} (l : list A) (k : Z) : list A :=
  take (Z.to_nat (if k <? 0 then Z.max 0 (Z.of_nat (length l) + k) else k)) l.

(** [locations] and [old_locations] of [draw_snake]: the part of the path the
    snake covers, and the entries before it. *)
Definition locations (s : SnakeBoard) : list (Z * Z) :=
  py_slice_from (get_path s) (Z.of_nat (length (get_path s)) - get_length s).

Definition old_locations (s : SnakeBoard) : list (Z * Z) :=
  py_slice_to (get_path s) (Z.of_nat (length (get_path s)) - get_length s).

Definition head (s : SnakeBoard) : Z * Z := (_snake_row s, _snake_col s).

(** The tile at position [p] of the board of [s] is [t]. *)
Definition tagged (s : SnakeBoard) (p : Z * Z) (t : tile) : Prop :=
  board_get (_board s) p.1 p.2 = Ok t.

#[global] Instance tagged_dec s p t : Decision (tagged s p t).
Proof. unfold tagged. apply _. Defined.

Definition on_board (s : SnakeBoard) (p : Z * Z) : Prop :=
  in_grid (_row s) (_col s) p.

(** The cells of the grid, row by row. *)
Definition all_cells (s : SnakeBoard) : list (Z * Z) :=
  r ← Z.of_nat <$> seq 0 (Z.to_nat (_row s));
  c ← Z.of_nat <$> seq 0 (Z.to_nat (_col s));
  [(r, c)].

(** The cells of the grid that hold the tile [t]. *)
Definition cells_tagged (s : SnakeBoard) (t : tile) : list (Z * Z) :=
  filter (λ p, tagged s p t) (all_cells s).

(** The cells of the grid that hold ['S1'] or ['S0']. *)
Definition snake_tagged (s : SnakeBoard) (p : Z * Z) : Prop :=
  tagged s p S1 ∨ tagged s p S0.

Definition snake_cells (s : SnakeBoard) : list (Z * Z) :=
  filter (snake_tagged s) (all_cells s).

(** The agreement of path and board that every tick relies on and restores. *)
Record Coherent (s : SnakeBoard) : Prop := {
  coh_rows : 2 ≤ _row s;
  coh_cols : 2 ≤ _col s;
  coh_board : wf_board (_row s) (_col s) (_board s);
  coh_length : 1 ≤ _snake_length s;
  coh_path :
    Z.of_nat (length (_snake s)) = _snake_length s
    ∨ Z.of_nat (length (_snake s)) = _snake_length s + 1;
  coh_on_board : Forall (on_board s) (_snake s);
  coh_head : last (_snake s) = Some (head s);
  coh_nodup : NoDup (locations s);
  coh_S0 : ∀ p, on_board s p → tagged s p S0 ↔ p ∈ locations s ∧ p ≠ head s;
  coh_S1 : ∀ p, on_board s p → tagged s p S1 → p = head s
}.

(** The representation invariant of a game in which the snake moves. *)
Record Inv (s : SnakeBoard) : Prop := {
  inv_coherent : Coherent s;
  inv_nodup : NoDup (_snake s);
  inv_head : tagged s (head s) S1;
  inv_pregame : _snake_direction s = (0, 0) → _snake_length s = 1
}.

(** The state after a tick taken while the direction is still [(0, 0)]: the
    head entry is doubled in the path and its tile is back to ['N']. *)
Record Stalled (s : SnakeBoard) : Prop := {
  stl_coherent : Coherent s;
  stl_path : _snake s = [head s; head s];
  stl_length : _snake_length s = 1;
  stl_head : tagged s (head s) Nothing
}.

(** The position [next] computes for the head. *)
Definition target (s : SnakeBoard) : Z * Z :=
  (_snake_row s + (_snake_direction s).2, _snake_col s + (_snake_direction s).1).

(** The state before the first apple: one ['S1'] on an all-['N'] board. *)
Definition first_state (row col snake_row snake_col : Z) (b : board) : SnakeBoard :=
  mkSnakeBoard row col b (0, 0) snake_row snake_col [(snake_row, snake_col)] 1
    false 0 0 false.

(** The exact reverse of a direction. *)
Definition opposite (d : Z * Z) : Z * Z := (- d.1, - d.2).

(** The states that a game can be in.  The flag tells whether the last tick
    was taken while the direction was still [(0, 0)].  A game starts with
    [SnakeBoard(row, col)]; then come key presses and ticks that do not end
    the game.  The draws are results of [random.randint] and so lie on the
    board. *)
Inductive reachable : bool → SnakeBoard → Prop :=
| reach_init row col draws s rest :
    Forall (in_grid row col) draws →
    SnakeBoard_init row col draws = Ok (s, rest) →
    reachable false s
| reach_direction stalled s k :
    reachable stalled s →
    reachable stalled (update_direction s (KEY_DICT k))
| reach_next stalled s draws r s' rest :
    reachable stalled s →
    Forall (on_board s) draws →
    next s draws = Ok (r, s', rest) →
    _end s' = false →
    reachable (direction_eqb (_snake_direction s) (0, 0)) s'.

(** ** A game on a 4 by 4 board

    The head starts at [(0, 0)]; the first draw for the apple falls on the
    head and is rejected, the second puts the apple at [(0, 3)]. *)

Definition game_draws : list (Z * Z) := [(0, 0); (0, 0); (0, 3)].

Definition game0 : SnakeBoard :=
  {| _row := 4; _col := 4;
     _board := [[S1; Nothing; Nothing; Apple];
                [Nothing; Nothing; Nothing; Nothing];
                [Nothing; Nothing; Nothing; Nothing];
                [Nothing; Nothing; Nothing; Nothing]];
     _snake_direction := (0, 0);
     _snake_row := 0; _snake_col := 0;
     _snake := [(0, 0)];
     _snake_length := 1;
     _end := false;
     _apple_row := 0; _apple_col := 3;
     _move_lock := false |}.

(** The state that a tick leaves, for a tick that returns. *)
Definition after_next (s : SnakeBoard) (draws : list (Z * Z)) : SnakeBoard :=
  match next s draws with
  | Ok (_, s', _) => s'
  | _ => s
  end.

(** [game0] after a tick taken before any key. *)
Definition game_stalled : SnakeBoard := after_next game0 [].

(** [game0] after the key [K_RIGHT], then after one and two ticks: the head
    is at [(0, 1)], then at [(0, 2)], next to the apple. *)
Definition game1 : SnakeBoard := update_direction game0 (KEY_DICT K_RIGHT).
Definition game2 : SnakeBoard := after_next game1 [].
Definition game3 : SnakeBoard := after_next game2 [].

(** [game3] with the key [K_UP]: the next tick leaves the board. *)
Definition game_wall : SnakeBoard := update_direction game3 (KEY_DICT K_UP).

(** A snake of length 4 coiled in a corner of a 3 by 3 board, about to run
    into its own tail at [(1, 1)]. *)
Definition game_coiled : SnakeBoard :=
  {| _row := 3; _col := 3;
     _board := [[S0; S0; Nothing];
                [S1; S0; Nothing];
                [Nothing; Nothing; Apple]];
     _snake_direction := (1, 0);
     _snake_row := 1; _snake_col := 0;
     _snake := [(1, 1); (0, 1); (0, 0); (1, 0)];
     _snake_length := 4;
     _end := false;
     _apple_row := 2; _apple_col := 2;
     _move_lock := false |}.

(** [z] is the floor of [m * 2 ^ e], in integers. *)
Definition floor_of_scaled (z : Z) (m : positive) (e : Z) : Prop :=
  (0 ≤ e → z = Z.pos m * 2 ^ e)
  ∧ (e < 0 → z * 2 ^ (- e) ≤ Z.pos m < (z + 1) * 2 ^ (- e)).

(** One power function: [x] itself for the exponent 1, and otherwise the
    product of [n] factors [x] taken from the left. *)
Definition float_pow_by_products (x : float) (n : Z) : float :=
  if n =? 1 then x else Z.iter n (λ y, (y * x)%float) 1%float.

(** ** States for the further properties *)

(** [game0] after a second call of [generate_apple] on the draws
    [(0, 0); (0, 3); (2, 2); (1, 1)]. *)
Definition game0_again : SnakeBoard :=
  set_apple
    (set_board game0 [[S1; Nothing; Nothing; Apple];
                      [Nothing; Nothing; Nothing; Nothing];
                      [Nothing; Nothing; Apple; Nothing];
                      [Nothing; Nothing; Nothing; Nothing]]) 2 2.

(** A snake of length 4 that fills a 2 by 2 board. *)
Definition game_coiled_full : SnakeBoard :=
  {| _row := 2; _col := 2;
     _board := [[S0; S0]; [S1; S0]];
     _snake_direction := (0, 1);
     _snake_row := 1; _snake_col := 0;
     _snake := [(1, 1); (0, 1); (0, 0); (1, 0)];
     _snake_length := 4;
     _end := false;
     _apple_row := 1; _apple_col := 0;
     _move_lock := false |}.

(** ** Directions, for the further properties *)

(** The key [k] asks for a quarter turn from the direction [d]. *)
Definition quarter_turn (d : Z * Z) (k : key) : bool :=
  (KEY_DICT k).1 * d.1 + (KEY_DICT k).2 * d.2 =? 0.

(** The cell [q] is next to the cell [p]: one step of an arrow key away, the
    first component of the key added to the column and the second to the
    row, as [next] does. *)
Definition adjacent (p q : Z * Z) : Prop :=
  ∃ k, q = (p.1 + (KEY_DICT k).2, p.2 + (KEY_DICT k).1).

(** Each entry of the path is next to the one before it. *)
Definition chain (path : list (Z * Z)) : Prop :=
  ∀ (i : nat) p q, path !! i = Some p → path !! S i = Some q → adjacent p q.

(** ** The apple, for the further properties *)

(** One apple: the position that [get_apple] returns is on the board, it is
    the only cell that holds ['A'], and it is not an entry of the path. *)
Record OneApple (s : SnakeBoard) : Prop := {
  apple_on_board : on_board s (get_apple s);
  apple_tile : ∀ p, on_board s p → tagged s p Apple ↔ p = get_apple s;
  apple_off_path : get_apple s ∉ get_path s
}.

(** ** The loop of [main]

    The board that [main] builds and drives, with the delay and the two
    lengths it keeps in [score].  The arrow keys that each call of
    [pygame.event.get()] returns are given as one list for each call; what
    [main] draws, the wait itself and the events other than arrow keys are
    left out. *)

(** [while not game_start]: calls of [pygame.event.get()] until one of them
    returns an arrow key; every arrow key of that call goes to
    [update_direction]. *)
Fixpoint wait_for_key (board : SnakeBoard) (frames : list (list key))
  : option (SnakeBoard * list (list key)) :=
  match frames with
  | [] => None
  | events :: frames' =>
      match events with
      | [] => wait_for_key board frames'
      | _ :: _ => Some (handle_events board events, frames')
      end
  end.

Section MainLoop.
Variable float_pow : float → Z → float.

(** [while True]: one list of keys for each turn of the loop.  The result
    tells whether the loop was left by [break], and gives the board, the
    delay, [score] and the draws that remain. *)
Fixpoint game_loop (frames : list (list key)) (board : SnakeBoard) (delay : Z)
    (score : list Z) (draws : list (Z * Z))
  : result (bool * SnakeBoard * Z * list Z * list (Z * Z)) :=
  if get_end board then Ok (true, board, delay, score, draws)
  else
    match frames with
    | [] => Ok (false, board, delay, score, draws)
    | events :: frames' =>
        let board1 := handle_events board events in
        score1 ←? py_pop0 (score ++ [get_length board1]);
        delay1 ←? tick_delay float_pow delay (get_length board1);
        '(_, board2, draws') ←? next board1 draws;
        game_loop frames' board2 delay1 score1 draws'
    end.

Definition main (frames : list (list key)) (draws : list (Z * Z))
  : result (bool * SnakeBoard * Z * list Z * list (Z * Z)) :=
  '(board, draws1) ←? SnakeBoard_init ROW COLUMN draws;
  match wait_for_key board frames with
  | None => Ok (false, board, STARTING_SPEED, [0; 0], draws1)
  | Some (board1, frames1) => game_loop frames1 board1 STARTING_SPEED [0; 0] draws1
  end.
End MainLoop.

(** The score that [draw_score] shows and [main] prints at the end. *)
Definition final_score (board : SnakeBoard) : Z := get_length board - 1.

(** A run of [main]: the key [K_DOWN] at the second call, then a turn to the
    right, and straight on into the wall. *)
Definition main_frames : list (list key) :=
  [[]; [K_DOWN]; []; [K_RIGHT; K_LEFT]; []; []; []; []; []; []; []; []; []; []; []; []].

Definition main_draws : list (Z * Z) := [(3, 5); (3, 5); (4, 5); (7, 7); (0, 0)].

Definition main_run : result (bool * SnakeBoard * Z * list Z * list (Z * Z)) :=
  main float_pow_by_products main_frames main_draws.

(** The board that the run ends with. *)
Definition main_board : SnakeBoard :=
  match main_run with
  | Ok (_, board, _, _, _) => board
  | _ => game0
  end.

(** ** [__str__] *)

(** The strings that the tiles are. *)
Definition tile_str (t : tile) : string :=
  match t with
  | S1 => "S1"
  | S0 => "S0"
  | Apple => "A"
  | Nothing => "N"
  end.

(** The one-character strings with the tab and with the newline. *)
Definition tab : string := String (Ascii.ascii_of_nat 9) EmptyString.
Definition newline : string := String (Ascii.ascii_of_nat 10) EmptyString.

(** ['\t'.join(row)] *)
Definition join_line (line : list tile) : string :=
  String.concat tab (tile_str <$> line).

(** The loop of [__str__], from the string [acc] built so far. *)
Definition str_rows (b : board) (acc : string) : string :=
  foldl (λ acc0 line, (acc0 +:+ join_line line) +:+ newline) acc b.

(** [str(board)]: for each row, the tiles joined by tabs and then a newline. *)
Definition SnakeBoard_str (s : SnakeBoard) : string :=
  str_rows (_board s) EmptyString.

(** ** A game on a 2 by 2 board

    The head starts at [(0, 0)] and the apple at [(0, 1)].  The snake goes
    right and eats, the new apple is drawn at [(1, 0)]; it goes down, and
    turns left towards the apple.  In that state, [corner5], the entry
    [(0, 0)] of the path is no longer a cell of the snake and is the only
    cell that holds ['N'].  The snake eats again, the apple is drawn at
    [(0, 0)], and the snake turns up towards it: in [corner_full] the snake
    and the apple fill the board. *)

Definition corner_draws : list (Z * Z) := [(0, 0); (0, 1)].

Definition corner0 : SnakeBoard :=
  {| _row := 2; _col := 2;
     _board := [[S1; Apple]; [Nothing; Nothing]];
     _snake_direction := (0, 0);
     _snake_row := 0; _snake_col := 0;
     _snake := [(0, 0)];
     _snake_length := 1;
     _end := false;
     _apple_row := 0; _apple_col := 1;
     _move_lock := false |}.

Definition corner1 : SnakeBoard := update_direction corner0 (KEY_DICT K_RIGHT).
Definition corner2 : SnakeBoard := after_next corner1 [(1, 0)].
Definition corner3 : SnakeBoard := update_direction corner2 (KEY_DICT K_DOWN).
Definition corner4 : SnakeBoard := after_next corner3 [].
Definition corner5 : SnakeBoard := update_direction corner4 (KEY_DICT K_LEFT).
Definition corner6 : SnakeBoard := after_next corner5 [(0, 0)].
Definition corner_full : SnakeBoard := update_direction corner6 (KEY_DICT K_UP).

(** * Properties *)

(** ** Python lists and ranges *)

Section PyListFacts.
Context {A : Type}.
Implicit Types (l : list A) (i : Z) (x : A).

Lemma py_pos_nonneg l i :
  0 ≤ i < Z.of_nat (length l) → py_pos l i = Some (Z.to_nat i).
Proof.
  intros Hi. unfold py_pos.
  destruct (Z.leb_spec 0 i), (Z.ltb_spec i (Z.of_nat (length l))); simpl; (done || lia).
Qed.

Lemma py_pos_neg l i :
  - Z.of_nat (length l) ≤ i < 0 →
  py_pos l i = Some (Z.to_nat (Z.of_nat (length l) + i)).
Proof.
  intros Hi. unfold py_pos.
  destruct (Z.leb_spec 0 i); [lia|]. simpl.
  destruct (Z.leb_spec (- Z.of_nat (length l)) i), (Z.ltb_spec i 0); simpl; (done || lia).
Qed.

Lemma py_pos_lt l i k : py_pos l i = Some k → (k < length l)%nat.
Proof.
  unfold py_pos. intros H.
  destruct (Z.leb_spec 0 i), (Z.ltb_spec i (Z.of_nat (length l))); simpl in H;
    try (injection H as <-; lia);
    destruct (Z.leb_spec (- Z.of_nat (length l)) i), (Z.ltb_spec i 0); simpl in H;
    try (injection H as <-; lia); discriminate.
Qed.

Lemma py_getitem_nonneg l i :
  0 ≤ i < Z.of_nat (length l) →
  ∃ x, l !! Z.to_nat i = Some x ∧ py_getitem l i = Ok x.
Proof.
  intros Hi. unfold py_getitem. rewrite py_pos_nonneg by done.
  destruct (lookup_lt_is_Some_2 l (Z.to_nat i)) as [x Hx]; [lia|].
  exists x. by rewrite Hx.
Qed.

Lemma py_getitem_neg l i :
  - Z.of_nat (length l) ≤ i < 0 →
  ∃ x, l !! Z.to_nat (Z.of_nat (length l) + i) = Some x ∧ py_getitem l i = Ok x.
Proof.
  intros Hi. unfold py_getitem. rewrite py_pos_neg by done.
  destruct (lookup_lt_is_Some_2 l (Z.to_nat (Z.of_nat (length l) + i))) as [x Hx]; [lia|].
  exists x. by rewrite Hx.
Qed.

Lemma py_setitem_nonneg l i x :
  0 ≤ i < Z.of_nat (length l) → py_setitem l i x = Ok (<[Z.to_nat i := x]> l).
Proof. intros Hi. unfold py_setitem. by rewrite py_pos_nonneg. Qed.

Lemma elem_of_drop_lookup l (k : nat) x :
  x ∈ drop k l ↔ ∃ j : nat, (k ≤ j)%nat ∧ l !! j = Some x.
Proof.
  rewrite list_elem_of_lookup. split.
  - intros [j Hj]. rewrite lookup_drop in Hj. exists (k + j)%nat. split; [lia|done].
  - intros [j [Hkj Hj]]. exists (j - k)%nat. rewrite lookup_drop.
    by replace (k + (j - k))%nat with j by lia.
Qed.

Lemma elem_of_take_lookup l (k : nat) x :
  x ∈ take k l ↔ ∃ j : nat, (j < k)%nat ∧ l !! j = Some x.
Proof.
  rewrite list_elem_of_lookup. split.
  - intros [j Hj]. apply lookup_take_Some in Hj as [Hj Hlt]. eauto.
  - intros [j [Hlt Hj]]. exists j. by rewrite lookup_take_lt.
Qed.
End PyListFacts.

Lemma elem_of_py_range_up (a b i : Z) : i ∈ py_range a b 1 ↔ a ≤ i < b.
Proof.
  unfold py_range. simpl. rewrite Z.div_1_r, list_elem_of_fmap. split.
  - intros [k [-> Hk]]. apply elem_of_seq in Hk. lia.
  - intros Hi. exists (Z.to_nat (i - a)). split; [lia|]. apply elem_of_seq. lia.
Qed.

Lemma elem_of_py_range_down (a b i : Z) : i ∈ py_range a b (-1) ↔ b < i ≤ a.
Proof.
  unfold py_range. simpl. rewrite Z.div_1_r, list_elem_of_fmap. split.
  - intros [k [-> Hk]]. apply elem_of_seq in Hk. lia.
  - intros Hi. exists (Z.to_nat (a - i)). split; [lia|]. apply elem_of_seq. lia.
Qed.

(** ** Boards of a fixed size *)

Section BoardFacts.
Variables rows cols : Z.
Implicit Types (b : board) (p q : Z * Z) (v : tile).

Lemma board_get_lookup b p :
  wf_board rows cols b → in_grid rows cols p →
  ∃ line t, b !! Z.to_nat p.1 = Some line ∧ line !! Z.to_nat p.2 = Some t
            ∧ Z.of_nat (length line) = cols ∧ board_get b p.1 p.2 = Ok t.
Proof.
  intros [Hlen Hall] [Hr Hc]. unfold board_get.
  destruct (py_getitem_nonneg b p.1) as (line & Hline & ->); [lia|].
  assert (Z.of_nat (length line) = cols) as Hl.
  { rewrite Forall_lookup in Hall. by apply (Hall _ _ Hline). }
  destruct (py_getitem_nonneg line p.2) as (t & Ht & Hget); [lia|].
  exists line, t. simpl. by rewrite Hget.
Qed.

Lemma board_get_total b p :
  wf_board rows cols b → in_grid rows cols p → ∃ t, board_get b p.1 p.2 = Ok t.
Proof.
  intros Hwf Hp. destruct (board_get_lookup b p Hwf Hp) as (? & t & ? & ? & ? & ?).
  by exists t.
Qed.

Lemma board_set_spec b p v :
  wf_board rows cols b → in_grid rows cols p →
  ∃ b', board_set b p.1 p.2 v = Ok b' ∧ wf_board rows cols b'
        ∧ ∀ q, in_grid rows cols q →
               board_get b' q.1 q.2 = if decide (q = p) then Ok v else board_get b q.1 q.2.
Proof.
  intros Hwf Hp.
  destruct (board_get_lookup b p Hwf Hp) as (line & t & Hline & Ht & Hl & _).
  destruct Hwf as [Hlen Hall], Hp as [Hr Hc].
  exists (<[Z.to_nat p.1 := <[Z.to_nat p.2 := v]> line]> b).
  split; [|split].
  - unfold board_set.
    destruct (py_getitem_nonneg b p.1) as (line' & Hline' & ->); [lia|].
    simpl. assert (line' = line) as -> by congruence.
    rewrite py_setitem_nonneg by lia. simpl. by rewrite py_setitem_nonneg by lia.
  - split; [by rewrite length_insert|].
    apply Forall_insert; [done|]. by rewrite length_insert.
  - intros q [Hqr Hqc]. unfold board_get.
    destruct (py_getitem_nonneg (<[Z.to_nat p.1 := <[Z.to_nat p.2 := v]> line]> b) q.1)
      as (l1 & Hl1 & ->); [rewrite length_insert; lia|].
    destruct (py_getitem_nonneg b q.1) as (l2 & Hl2 & ->); [lia|]. simpl.
    destruct (decide (q.1 = p.1)) as [E1|N1].
    + rewrite E1 in Hl1, Hl2.
      rewrite list_lookup_insert_eq in Hl1 by lia.
      assert (l2 = line) as -> by congruence.
      injection Hl1 as <-.
      destruct (decide (q.2 = p.2)) as [E2|N2].
      * rewrite decide_True by (destruct p, q; simpl in *; congruence).
        rewrite E2. destruct (py_getitem_nonneg (<[Z.to_nat p.2 := v]> line) p.2)
          as (x & Hx & ->); [rewrite length_insert; lia|].
        rewrite list_lookup_insert_eq in Hx by lia. congruence.
      * rewrite decide_False by congruence.
        unfold py_getitem. rewrite !py_pos_nonneg by (rewrite ?length_insert; lia).
        rewrite list_lookup_insert_ne by lia. done.
    + rewrite decide_False by congruence.
      rewrite list_lookup_insert_ne in Hl1 by lia. congruence.
Qed.

(** A loop that writes [v] at the cell [cell_of i] for each [i] of [idxs]. *)
Lemma for_each_board_set (cell_of : Z → result (Z * Z)) v (idxs : list Z) b :
  wf_board rows cols b →
  (∀ i, i ∈ idxs → ∃ p, cell_of i = Ok p ∧ in_grid rows cols p) →
  ∃ b', for_each (λ i b0, p ←? cell_of i; board_set b0 p.1 p.2 v) idxs b = Ok b'
        ∧ wf_board rows cols b'
        ∧ ∀ q, in_grid rows cols q →
               board_get b' q.1 q.2 =
                 if decide (Exists (λ i, cell_of i = Ok q) idxs) then Ok v
                 else board_get b q.1 q.2.
Proof.
  revert b. induction idxs as [|i idxs IH]; intros b Hwf Hcells.
  - exists b. split; [done|]. split; [done|]. intros q Hq.
    rewrite decide_False; [done|]. by intros ?%Exists_nil.
  - destruct (Hcells i) as (p & Hp & Hpg); [left|].
    destruct (board_set_spec b p v Hwf Hpg) as (b1 & Hset & Hwf1 & Hget1).
    destruct (IH b1 Hwf1) as (b' & Hloop & Hwf' & Hget').
    { intros j Hj. apply Hcells. by right. }
    exists b'. split; [|split; [done|]].
    + simpl. rewrite Hp. simpl. rewrite Hset. simpl. done.
    + intros q Hq. rewrite (Hget' q Hq), (Hget1 q Hq).
      destruct (decide (Exists _ idxs)) as [E|NE].
      * rewrite decide_True; [done|]. by right.
      * destruct (decide (q = p)) as [->|Nqp].
        -- rewrite decide_True; [done|]. by left.
        -- rewrite decide_False; [done|].
           rewrite Exists_cons. intros [H|H]; [congruence|done].
Qed.
End BoardFacts.

Section PyIndexFacts.
Context {A : Type}.
Implicit Types (l : list A) (i : Z) (x : A).

Lemma py_getitem_nonneg_iff l i x :
  0 ≤ i < Z.of_nat (length l) →
  py_getitem l i = Ok x ↔ l !! Z.to_nat i = Some x.
Proof.
  intros Hi. destruct (py_getitem_nonneg l i Hi) as (y & Hy & ->).
  rewrite Hy. split; congruence.
Qed.

Lemma py_getitem_neg_iff l i x :
  - Z.of_nat (length l) ≤ i < 0 →
  py_getitem l i = Ok x ↔ l !! Z.to_nat (Z.of_nat (length l) + i) = Some x.
Proof.
  intros Hi. destruct (py_getitem_neg l i Hi) as (y & Hy & ->).
  rewrite Hy. split; congruence.
Qed.

(** The cells visited by [for i in range(2, len + 1): ... path[-i] ...]. *)
Lemma Exists_range_from_end l (len : Z) x :
  0 ≤ len ≤ Z.of_nat (length l) →
  Exists (λ i, py_getitem l (- i) = Ok x) (py_range 2 (len + 1) 1)
  ↔ ∃ j : nat, Z.of_nat (length l) - len ≤ Z.of_nat j
               ∧ Z.of_nat j + 2 ≤ Z.of_nat (length l) ∧ l !! j = Some x.
Proof.
  intros Hlen. rewrite Exists_exists. split.
  - intros (i & Hi & Hget). apply elem_of_py_range_up in Hi.
    apply py_getitem_neg_iff in Hget; [|lia].
    exists (Z.to_nat (Z.of_nat (length l) + - i)). split; [lia|]. split; [lia|done].
  - intros (j & Hlo & Hhi & Hj). exists (Z.of_nat (length l) - Z.of_nat j). split.
    + apply elem_of_py_range_up. lia.
    + apply py_getitem_neg_iff; [lia|].
      by replace (Z.to_nat (Z.of_nat (length l) + - (Z.of_nat (length l) - Z.of_nat j)))
        with j by lia.
Qed.

(** The cells visited by [for i in range(len(path) - len - 1, -1, -1): ... path[i] ...]. *)
Lemma Exists_range_from_start l (len : Z) x :
  0 ≤ len →
  Exists (λ i, py_getitem l i = Ok x)
    (py_range (Z.of_nat (length l) - len - 1) (-1) (-1))
  ↔ ∃ j : nat, Z.of_nat j + len < Z.of_nat (length l) ∧ l !! j = Some x.
Proof.
  intros Hlen. rewrite Exists_exists. split.
  - intros (i & Hi & Hget). apply elem_of_py_range_down in Hi.
    apply py_getitem_nonneg_iff in Hget; [|lia].
    exists (Z.to_nat i). split; [lia|done].
  - intros (j & Hlt & Hj). exists (Z.of_nat j). split.
    + apply elem_of_py_range_down. lia.
    + apply py_getitem_nonneg_iff; [lia|]. by rewrite Nat2Z.id.
Qed.
End PyIndexFacts.

(** ** One tick *)

Lemma elem_of_take_drop_lookup {A} (l : list A) (a k : nat) x :
  x ∈ take a (drop k l) ↔ ∃ j : nat, (k ≤ j < k + a)%nat ∧ l !! j = Some x.
Proof.
  rewrite elem_of_take_lookup. split.
  - intros (j & Hj & Hx). rewrite lookup_drop in Hx. exists (k + j)%nat. split; [lia|done].
  - intros (j & Hj & Hx). exists (j - k)%nat. split; [lia|].
    rewrite lookup_drop. by replace (k + (j - k))%nat with j by lia.
Qed.

(** The first loop of [next] tags the last [len] entries of the path, the
    very last one excepted. *)
Lemma tag_segment_loop rows cols path (len : Z) b :
  wf_board rows cols b → Forall (in_grid rows cols) path →
  0 ≤ len ≤ Z.of_nat (length path) →
  ∃ b', for_each (tag_segment path) (py_range 2 (len + 1) 1) b = Ok b'
        ∧ wf_board rows cols b'
        ∧ ∀ q, in_grid rows cols q →
               board_get b' q.1 q.2 =
                 if decide (q ∈ take (Z.to_nat (len - 1))
                                  (drop (Z.to_nat (Z.of_nat (length path) - len)) path))
                 then Ok S0 else board_get b q.1 q.2.
Proof.
  intros Hwf Hpath Hlen.
  destruct (for_each_board_set rows cols (λ i, py_getitem path (- i)) S0
              (py_range 2 (len + 1) 1) b Hwf) as (b' & Hloop & Hwf' & Hget).
  { intros i Hi. apply elem_of_py_range_up in Hi.
    destruct (py_getitem_neg path (- i)) as (p & Hp & Hgetp); [lia|].
    exists p. split; [done|]. by eapply Forall_lookup_1. }
  exists b'. split; [done|]. split; [done|]. intros q Hq. rewrite (Hget q Hq).
  destruct (decide (Exists _ _)) as [E|NE].
  - rewrite decide_True; [done|]. apply Exists_range_from_end in E; [|done].
    destruct E as (j & ? & ? & ?). apply elem_of_take_drop_lookup. exists j. split; [lia|done].
  - rewrite decide_False; [done|]. intros H. apply NE.
    apply Exists_range_from_end; [done|]. apply elem_of_take_drop_lookup in H.
    destruct H as (j & ? & ?). exists j. split; [lia|]. split; [lia|done].
Qed.

(** The second loop of [next] clears every entry before the last [len]. *)
Lemma clear_old_loop rows cols path (len : Z) b :
  wf_board rows cols b → Forall (in_grid rows cols) path → 0 ≤ len →
  ∃ b', for_each (clear_old path) (py_range (Z.of_nat (length path) - len - 1) (-1) (-1)) b
        = Ok b'
        ∧ wf_board rows cols b'
        ∧ ∀ q, in_grid rows cols q →
               board_get b' q.1 q.2 =
                 if decide (q ∈ take (Z.to_nat (Z.of_nat (length path) - len)) path)
                 then Ok Nothing else board_get b q.1 q.2.
Proof.
  intros Hwf Hpath Hlen.
  destruct (for_each_board_set rows cols (λ i, py_getitem path i) Nothing
              (py_range (Z.of_nat (length path) - len - 1) (-1) (-1)) b Hwf)
    as (b' & Hloop & Hwf' & Hget).
  { intros i Hi. apply elem_of_py_range_down in Hi.
    destruct (py_getitem_nonneg path i) as (p & Hp & Hgetp); [lia|].
    exists p. split; [done|]. by eapply Forall_lookup_1. }
  exists b'. split; [done|]. split; [done|]. intros q Hq. rewrite (Hget q Hq).
  destruct (decide (Exists _ _)) as [E|NE].
  - rewrite decide_True; [done|]. apply Exists_range_from_start in E; [|done].
    destruct E as (j & ? & ?). apply elem_of_take_lookup. exists j. split; [lia|done].
  - rewrite decide_False; [done|]. intros H. apply NE.
    apply Exists_range_from_start; [done|]. apply elem_of_take_lookup in H.
    destruct H as (j & ? & ?). exists j. split; [lia|done].
Qed.

Lemma locations_drop s :
  Coherent s →
  locations s = drop (length (_snake s) - Z.to_nat (_snake_length s)) (_snake s)
  ∧ Z.of_nat (length (locations s)) = _snake_length s.
Proof.
  intros [_ _ _ HL Hpath _ _ _ _ _].
  unfold locations, py_slice_from, get_path, get_length.
  destruct (Z.ltb_spec (Z.of_nat (length (_snake s)) - _snake_length s) 0); [lia|].
  replace (Z.to_nat (Z.of_nat (length (_snake s)) - _snake_length s))
    with (length (_snake s) - Z.to_nat (_snake_length s))%nat by lia.
  split; [done|]. rewrite length_drop. lia.
Qed.

Lemma head_on_board s : Coherent s → on_board s (head s).
Proof.
  intros Hc. destruct Hc as [_ _ _ _ _ Hon Hhead _ _ _].
  rewrite last_lookup in Hhead. by eapply Forall_lookup_1.
Qed.

Lemma head_in_locations s : Coherent s → last (locations s) = Some (head s).
Proof.
  intros Hc. destruct (locations_drop s Hc) as [Hloc Hlen].
  destruct Hc as [_ _ _ HL Hpath _ Hhead _ _ _].
  rewrite last_lookup in Hhead |- *. rewrite Hloc at 2. rewrite lookup_drop.
  rewrite <- Hhead. f_equal. lia.
Qed.

(** The path after the append and the conditional [pop(0)]. *)
Lemma path_after_append s (n : Z * Z) :
  Coherent s →
  (if Z.of_nat (length (_snake s ++ [n])) >? _snake_length s + 1
   then py_pop0 (_snake s ++ [n]) else Ok (_snake s ++ [n]))
  = Ok (locations s ++ [n]).
Proof.
  intros Hc. destruct (locations_drop s Hc) as [Hloc _].
  destruct Hc as [_ _ _ HL Hpath _ _ _ _ _].
  rewrite Hloc, length_app. simpl.
  destruct (Z.gtb_spec (Z.of_nat (length (_snake s) + 1)) (_snake_length s + 1)).
  - destruct (_snake s) as [|x path] eqn:E; simpl in *; [lia|].
    replace (S (length path) - Z.to_nat (_snake_length s))%nat with 1%nat by lia. done.
  - replace (length (_snake s) - Z.to_nat (_snake_length s))%nat with 0%nat by lia. done.
Qed.

(** What [move_snake] computes in a coherent state: the new path, the new
    length and, tile by tile, the new board. *)
Lemma move_snake_spec s (n : Z * Z) :
  Coherent s → on_board s n →
  ∃ t b',
    (if decide (n = head s) then t = Nothing else tagged s n t)
    ∧ let len := if tile_eqb t Apple then _snake_length s + 1 else _snake_length s in
      let path := locations s ++ [n] in
      move_snake s n.1 n.2
      = Ok (tile_eqb t Apple, set_board (set_snake s n.1 n.2 path len) b')
      ∧ wf_board (_row s) (_col s) b'
      ∧ ∀ p, on_board s p →
             board_get b' p.1 p.2 =
               if decide (p ∈ take (Z.to_nat (Z.of_nat (length path) - len)) path)
               then Ok Nothing
               else if decide (p ∈ take (Z.to_nat (len - 1))
                                     (drop (Z.to_nat (Z.of_nat (length path) - len)) path))
               then Ok S0
               else if decide (p = n) then Ok S1
               else if decide (p = head s) then Ok Nothing
               else board_get (_board s) p.1 p.2.
Proof.
  intros Hc Hn. destruct n as [nr nc].
  pose proof (head_on_board s Hc) as Hh.
  pose proof (path_after_append s (nr, nc) Hc) as Hpath2.
  destruct (locations_drop s Hc) as [Hloc Hloclen].
  pose proof Hc as [_ _ Hwf HL Hlen Hon _ _ _ _].
  destruct (board_set_spec _ _ (_board s) (head s) Nothing Hwf Hh)
    as (b1 & Hset1 & Hwf1 & Hget1).
  destruct (board_get_total _ _ b1 (nr, nc) Hwf1 Hn) as [t Ht].
  set (len := if tile_eqb t Apple then _snake_length s + 1 else _snake_length s).
  set (path := locations s ++ [(nr, nc)]).
  assert (Forall (in_grid (_row s) (_col s)) path) as Hpathon.
  { apply Forall_app. split; [|by apply Forall_singleton].
    rewrite Hloc. by apply Forall_drop. }
  assert (Z.of_nat (length path) = _snake_length s + 1) as Hpathlen.
  { unfold path. rewrite length_app. simpl. lia. }
  assert (0 ≤ len ≤ Z.of_nat (length path)) as Hlenb.
  { unfold len. destruct (tile_eqb t Apple); lia. }
  destruct (board_set_spec _ _ b1 (nr, nc) S1 Hwf1 Hn) as (b2 & Hset2 & Hwf2 & Hget2).
  destruct (tag_segment_loop _ _ path len b2 Hwf2 Hpathon Hlenb)
    as (b3 & Hloop3 & Hwf3 & Hget3).
  destruct (clear_old_loop _ _ path len b3 Hwf3 Hpathon (proj1 Hlenb))
    as (b4 & Hloop4 & Hwf4 & Hget4).
  exists t, b4. split; [|split; [|split; [done|]]].
  - rewrite (Hget1 _ Hn) in Ht. destruct (decide ((nr, nc) = head s)); [congruence|done].
  - unfold move_snake. simpl in Hset1, Hset2, Ht |- *. rewrite Hset1. cbn [bind].
    rewrite Hpath2. cbn [bind]. rewrite Ht. cbn [bind].
    rewrite Hset2. cbn [bind]. fold len path. rewrite Hloop3. cbn [bind].
    rewrite Hloop4. cbn [bind]. done.
  - intros p Hp. rewrite (Hget4 p Hp). destruct (decide (p ∈ take _ path)); [done|].
    rewrite (Hget3 p Hp). destruct (decide (p ∈ take _ (drop _ path))); [done|].
    rewrite (Hget2 p Hp). destruct (decide (p = (nr, nc))); [done|].
    by rewrite (Hget1 p Hp).
Qed.

(** The three parts of the new path: the entries that fall out of the
    snake, the body, and the new head. *)
Lemma new_path_parts s (n : Z * Z) (len : Z) :
  Coherent s → len = _snake_length s ∨ len = _snake_length s + 1 →
  let path := locations s ++ [n] in
  let k := Z.to_nat (Z.of_nat (length path) - len) in
  take k path = take k (locations s)
  ∧ take (Z.to_nat (len - 1)) (drop k path) = drop k (locations s)
  ∧ drop k path = drop k (locations s) ++ [n]
  ∧ (k ≤ 1)%nat.
Proof.
  intros Hc Hlen path k. destruct (locations_drop s Hc) as [_ Hloclen].
  pose proof (coh_length s Hc) as HL.
  assert (Z.of_nat (length path) = _snake_length s + 1) as Hpathlen.
  { unfold path. rewrite length_app. simpl. lia. }
  assert (k ≤ length (locations s))%nat as Hk by lia.
  unfold path. rewrite take_app_le, drop_app_le by done.
  split; [done|]. split; [|split; [done|lia]].
  apply take_app_length'. rewrite length_drop. lia.
Qed.

Lemma move_snake_moving s (n : Z * Z) :
  Coherent s → on_board s n → n ≠ head s → ¬ tagged s n S0 →
  ∃ t b',
    tagged s n t
    ∧ let len := if tile_eqb t Apple then _snake_length s + 1 else _snake_length s in
      let s' := set_board (set_snake s n.1 n.2 (locations s ++ [n]) len) b' in
      move_snake s n.1 n.2 = Ok (tile_eqb t Apple, s')
      ∧ Coherent s' ∧ NoDup (_snake s') ∧ tagged s' n S1
      ∧ ∀ p, on_board s p → p ∉ _snake s → p ≠ n →
             board_get b' p.1 p.2 = board_get (_board s) p.1 p.2.
Proof.
  intros Hc Hn Hne HnS0.
  destruct (move_snake_spec s n Hc Hn) as (t & b' & Ht & Hrun & Hwf & Hget).
  rewrite decide_False in Ht by done.
  exists t, b'. split; [done|]. intros len s'. fold len in Hrun, Hget.
  assert (len = _snake_length s ∨ len = _snake_length s + 1) as Hlen.
  { unfold len. destruct (tile_eqb t Apple); auto. }
  destruct (new_path_parts s n len Hc Hlen) as (Hold & Hmid & Hnew & Hk).
  destruct (locations_drop s Hc) as [Hloc Hloclen].
  pose proof (head_in_locations s Hc) as Hhead.
  pose proof Hc as [Hrows Hcols _ HL _ Hon _ Hnodup HS0 HS1].
  set (path := locations s ++ [n]) in *.
  set (k := Z.to_nat (Z.of_nat (length path) - len)) in *.
  rewrite Hold, Hmid in Hget.
  assert (Z.of_nat (length path) = _snake_length s + 1) as Hpathlen.
  { unfold path. rewrite length_app. simpl. lia. }
  assert (n ∉ locations s) as Hnloc.
  { intros Hin. apply HnS0. by apply HS0. }
  assert (NoDup path) as Hnd.
  { apply NoDup_app. split; [done|]. split; [|apply NoDup_singleton].
    intros x Hx ->%list_elem_of_singleton. done. }
  assert (locations s' = drop k (locations s) ++ [n]) as Hloc'.
  { rewrite <- Hnew. unfold locations, py_slice_from, get_path, get_length. simpl.
    fold path. destruct (Z.ltb_spec (Z.of_nat (length path) - len) 0); [lia|done]. }
  assert (∀ p, p ∈ locations s ↔ p ∈ take k (locations s) ∨ p ∈ drop k (locations s))
    as Hsplit.
  { intros p. rewrite <- elem_of_app. by rewrite take_drop. }
  assert (∀ p, p ∈ take k (locations s) → p ∉ drop k (locations s)) as Hdisj.
  { rewrite <- (take_drop k (locations s)) in Hnodup.
    apply NoDup_app in Hnodup. apply Hnodup. }
  assert (head s ∈ locations s) as Hheadin by (by eapply last_Some_elem_of).
  assert (∀ p, on_board s p →
            board_get b' p.1 p.2 =
              if decide (p ∈ take k (locations s)) then Ok Nothing
              else if decide (p ∈ drop k (locations s)) then Ok S0
              else if decide (p = n) then Ok S1
              else board_get (_board s) p.1 p.2) as Hget'.
  { intros p Hp. rewrite (Hget p Hp). repeat case_decide; try done.
    subst p. exfalso. apply Hsplit in Hheadin. tauto. }
  split; [done|]. split; [|split; [|split]].
  - split; simpl; try done.
    + lia.
    + lia.
    + apply Forall_app. split; [|by apply Forall_singleton].
      rewrite Hloc. by apply Forall_drop.
    + unfold head. simpl. fold path. unfold path. rewrite last_snoc. by destruct n.
    + rewrite Hloc'. apply NoDup_app. split; [eapply sublist_NoDup; [exact Hnodup|apply sublist_drop]|].
      split; [|apply NoDup_singleton].
      intros x Hx ->%list_elem_of_singleton. apply Hnloc. apply Hsplit. auto.
    + intros p Hp. unfold tagged, head. simpl. rewrite (Hget' p Hp), Hloc', elem_of_app.
      rewrite list_elem_of_singleton. destruct n as [nr nc]. simpl.
      repeat case_decide.
      * split; [done|]. intros [[?|?] ?]; [|done]. exfalso. by eapply Hdisj.
      * split; [|done]. intros _. split; [auto|]. intros ->. apply Hnloc, Hsplit. auto.
      * split; [done|]. intros [_ ?]. done.
      * split; [|intros [[?|?] ?]; done]. intros HS. apply (HS0 p Hp) in HS as [HS _].
        apply Hsplit in HS. tauto.
    + intros p Hp. unfold tagged, head. simpl. rewrite (Hget' p Hp).
      destruct n as [nr nc]. simpl. repeat case_decide; try done.
      intros HS. apply (HS1 p Hp) in HS. subst p. apply Hsplit in Hheadin. tauto.
  - done.
  - unfold tagged. simpl. rewrite (Hget' n Hn).
    rewrite decide_False by (intros ?; apply Hnloc, Hsplit; auto).
    rewrite decide_False by (intros ?; apply Hnloc, Hsplit; auto).
    by rewrite decide_True.
  - intros p Hp Hnp Hpn. rewrite (Hget' p Hp).
    assert (p ∉ locations s) as Hploc.
    { intros Hin. apply Hnp. rewrite Hloc in Hin. by eapply subseteq_drop. }
    rewrite decide_False by (intros ?; apply Hploc, Hsplit; auto).
    rewrite decide_False by (intros ?; apply Hploc, Hsplit; auto).
    by rewrite decide_False.
Qed.

Lemma move_snake_still s :
  Coherent s → _snake_length s = 1 →
  ∃ b',
    let s' := set_board (set_snake s (_snake_row s) (_snake_col s) [head s; head s] 1) b' in
    move_snake s (_snake_row s) (_snake_col s) = Ok (false, s')
    ∧ Stalled s'
    ∧ ∀ p, on_board s p → p ≠ head s →
           board_get b' p.1 p.2 = board_get (_board s) p.1 p.2.
Proof.
  intros Hc HL1.
  pose proof (head_on_board s Hc) as Hh.
  destruct (move_snake_spec s (head s) Hc Hh) as (t & b' & Ht & Hrun & Hwf & Hget).
  rewrite decide_True in Ht by done. subst t.
  destruct (locations_drop s Hc) as [_ Hloclen].
  pose proof (head_in_locations s Hc) as Hhead.
  assert (locations s = [head s]) as Hloc.
  { destruct (locations s) as [|x [|y l]]; simpl in *; [lia| |lia]. congruence. }
  pose proof Hc as [Hrows Hcols _ _ _ _ _ _ HS0 HS1].
  rewrite Hloc, HL1 in Hrun, Hget. simpl in Hrun, Hget.
  exists b'. intros s'.
  assert (∀ p, on_board s p →
            board_get b' p.1 p.2 =
              if decide (p = head s) then Ok Nothing else board_get (_board s) p.1 p.2)
    as Hget'.
  { intros p Hp. rewrite (Hget p Hp). destruct (decide (p = head s)) as [->|Hne].
    - rewrite decide_True; [done|]. by apply list_elem_of_singleton.
    - rewrite decide_False; [done|]. by intros ?%list_elem_of_singleton. }
  split; [done|]. split; [|intros p Hp Hne; by rewrite (Hget' p Hp), decide_False].
  split; [split| | |]; simpl; try done.
  - lia.
  - repeat (constructor; [exact Hh|]). constructor.
  - unfold locations, py_slice_from, get_path, get_length. simpl.
    apply NoDup_singleton.
  - intros p Hp. unfold tagged, locations, py_slice_from, get_path, get_length. simpl.
    rewrite (Hget' p Hp), list_elem_of_singleton. case_decide.
    + split; [done|]. by intros [_ ?].
    + split; [|by intros [? ?]]. intros HS. apply (HS0 p Hp) in HS as [HS _].
      rewrite Hloc in HS. by apply list_elem_of_singleton in HS.
  - intros p Hp. unfold tagged. simpl. rewrite (Hget' p Hp).
    case_decide; [done|]. apply (HS1 p Hp).
  - unfold tagged. simpl. pose proof (Hget' _ Hh) as Hg. by rewrite decide_True in Hg.
Qed.

(** ** Results of [bind] *)

Lemma bind_Ok {A B} (m : result A) (k : A → result B) (b : B) :
  bind m k = Ok b ↔ ∃ a, m = Ok a ∧ k a = Ok b.
Proof.
  destruct m as [a| |]; simpl; split.
  - intros H. by exists a.
  - by intros (a' & [= <-] & ?).
  - done.
  - by intros (? & ? & ?).
  - done.
  - by intros (? & ? & ?).
Qed.

Ltac inv_bind H :=
  repeat match type of H with
  | bind _ _ = Ok _ =>
      let a := fresh "a" in let Ha := fresh "Ha" in
      apply bind_Ok in H as (a & Ha & H)
  end.

(** ** [generate_apple] *)

Lemma generate_apple_loop_sound b draws ar ac rest :
  generate_apple_loop b draws = Ok (ar, ac, rest) →
  board_get b ar ac = Ok Nothing ∧ (ar, ac) ∈ draws ∧ ∃ pre, draws = pre ++ (ar, ac) :: rest.
Proof.
  induction draws as [|[r c] draws IH]; [done|]. simpl. intros H.
  apply bind_Ok in H as (t & Ht & H). unfold tile_eqb in H. case_bool_decide.
  - injection H as <- <- <-. subst t. split; [done|]. split; [left|]. by exists [].
  - destruct (IH H) as (? & ? & pre & ->). split; [done|]. split; [by right|].
    by exists ((r, c) :: pre).
Qed.

Lemma generate_apple_loop_total rows cols b draws :
  wf_board rows cols b → Forall (in_grid rows cols) draws →
  Exists (λ p, board_get b p.1 p.2 = Ok Nothing) draws →
  ∃ ar ac rest, generate_apple_loop b draws = Ok (ar, ac, rest).
Proof.
  intros Hwf Hon Hex. induction draws as [|[r c] draws IH]; [by apply Exists_nil in Hex|].
  apply Forall_cons in Hon as [Hp Hon]. simpl.
  destruct (board_get_total _ _ b (r, c) Hwf Hp) as [t Ht]. simpl in Ht. rewrite Ht. simpl.
  unfold tile_eqb. case_bool_decide; [by eauto|].
  apply IH; [done|]. apply Exists_cons in Hex as [Hex|Hex]; [|done].
  simpl in Hex. congruence.
Qed.

(** [generate_apple], when it returns, has turned one ['N'] tile into ['A']. *)
Lemma generate_apple_sound s draws s' rest :
  wf_board (_row s) (_col s) (_board s) → Forall (on_board s) draws →
  generate_apple s draws = Ok (s', rest) →
  ∃ b' a, s' = set_apple (set_board s b') a.1 a.2
        ∧ on_board s a ∧ tagged s a Nothing ∧ a ∈ draws
        ∧ wf_board (_row s) (_col s) b'
        ∧ ∀ q, on_board s q →
               board_get b' q.1 q.2 =
                 if decide (q = a) then Ok Apple else board_get (_board s) q.1 q.2.
Proof.
  intros Hwf Hon H. unfold generate_apple in H.
  apply bind_Ok in H as ([[ar ac] rest'] & Hloop & H).
  apply bind_Ok in H as (b' & Hset & [= <- <-]).
  apply generate_apple_loop_sound in Hloop as (HN & Hin & _).
  assert (on_board s (ar, ac)) as Ha by (by eapply Forall_forall in Hon).
  destruct (board_set_spec _ _ (_board s) (ar, ac) Apple Hwf Ha) as (b'' & Hset' & Hwf' & Hget).
  simpl in Hset'. assert (b'' = b') as -> by congruence.
  exists b', (ar, ac). by split_and!.
Qed.

Lemma generate_apple_total s draws :
  wf_board (_row s) (_col s) (_board s) → Forall (on_board s) draws →
  Exists (λ p, tagged s p Nothing) draws →
  ∃ s' rest, generate_apple s draws = Ok (s', rest).
Proof.
  intros Hwf Hon Hex.
  destruct (generate_apple_loop_total _ _ _ draws Hwf Hon Hex) as (ar & ac & rest & Hloop).
  pose proof Hloop as (HN & Hin & _)%generate_apple_loop_sound.
  assert (on_board s (ar, ac)) as Ha by (by eapply Forall_forall in Hon).
  destruct (board_set_spec _ _ (_board s) (ar, ac) Apple Hwf Ha) as (b' & Hset & _).
  unfold generate_apple. rewrite Hloop. simpl. simpl in Hset. rewrite Hset. simpl. eauto.
Qed.

(** ** Fields that the invariant does not read *)

Lemma Coherent_set_move_lock s l : Coherent s → Coherent (set_move_lock s l).
Proof. intros []. by split. Qed.

Lemma Coherent_set_snake_direction s d : Coherent s → Coherent (set_snake_direction s d).
Proof. intros []. by split. Qed.

Lemma Coherent_set_apple s b r c :
  Coherent (set_board s b) → Coherent (set_apple (set_board s b) r c).
Proof. intros []. by split. Qed.

(** Putting the apple on an ['N'] tile keeps path and board in agreement. *)
Lemma Coherent_generate_apple s draws s' rest :
  Coherent s → Forall (on_board s) draws → generate_apple s draws = Ok (s', rest) →
  Coherent s' ∧ _snake s' = _snake s ∧ _snake_length s' = _snake_length s
  ∧ head s' = head s ∧ _snake_direction s' = _snake_direction s
  ∧ _end s' = _end s ∧ _move_lock s' = _move_lock s
  ∧ _row s' = _row s ∧ _col s' = _col s
  ∧ get_apple s' ∈ draws ∧ on_board s (get_apple s')
  ∧ tagged s (get_apple s') Nothing ∧ tagged s' (get_apple s') Apple
  ∧ ∀ q t, on_board s q → q ≠ get_apple s' → tagged s' q t ↔ tagged s q t.
Proof.
  intros Hc Hon H.
  destruct (generate_apple_sound s draws s' rest (coh_board s Hc) Hon H)
    as (b' & [ar ac] & -> & Ha & HaN & Hin & Hwf' & Hget).
  unfold get_apple, head. simpl in *.
  set (s' := set_apple (set_board s b') ar ac).
  assert (∀ q t, on_board s q → q ≠ (ar, ac) → tagged s' q t ↔ tagged s q t) as Hframe.
  { intros q t Hq Hne. unfold tagged. simpl. by rewrite (Hget q Hq), decide_False. }
  assert (tagged s' (ar, ac) Apple) as HaA.
  { unfold tagged. simpl. pose proof (Hget _ Ha) as Hg. by rewrite decide_True in Hg. }
  assert (∀ t, t ≠ Apple → ¬ tagged s' (ar, ac) t) as Hnot.
  { intros t Ht Htag. unfold tagged in *. congruence. }
  assert (∀ t, t ≠ Nothing → ¬ tagged s (ar, ac) t) as Hnot'.
  { intros t Ht Htag. unfold tagged in *. congruence. }
  split_and!; try done.
  apply Coherent_set_apple.
  destruct Hc as [? ? ? ? ? ? ? ? HS0 HS1]. split; try done.
  - intros p Hp. destruct (decide (p = (ar, ac))) as [->|Hne].
    + split; [by intros ?%Hnot|]. intros HS. apply (HS0 _ Hp) in HS. by apply Hnot' in HS.
    + rewrite <- (HS0 p Hp). by apply Hframe.
  - intros p Hp. destruct (decide (p = (ar, ac))) as [->|Hne].
    + by intros ?%Hnot.
    + intros HS. apply (HS1 p Hp). by apply Hframe.
Qed.

Lemma Inv_generate_apple s draws s' rest :
  Inv s → Forall (on_board s) draws → generate_apple s draws = Ok (s', rest) → Inv s'.
Proof.
  intros [Hc Hnd Hhead Hpre] Hon H.
  destruct (Coherent_generate_apple s draws s' rest Hc Hon H)
    as (Hc' & Hpath & Hlen & Hh & Hdir & _ & _ & _ & _ & _ & Ha & HaN & _ & Hframe).
  split; [done|by rewrite Hpath| |by rewrite Hdir, Hlen].
  rewrite Hh. apply Hframe; [by apply head_on_board| |done].
  intros E. rewrite E in Hhead. unfold tagged in *. congruence.
Qed.

(** ** [next] *)

Lemma off_board_test s (p : Z * Z) :
  negb ((0 <=? p.1) && (p.1 <? _row s)) || negb ((0 <=? p.2) && (p.2 <? _col s)) = true
  ↔ ¬ on_board s p.
Proof.
  unfold on_board, in_grid.
  destruct (Z.leb_spec 0 p.1), (Z.ltb_spec p.1 (_row s)),
    (Z.leb_spec 0 p.2), (Z.ltb_spec p.2 (_col s)); simpl; split; intros; (done || lia).
Qed.

(** The two collision paths. *)
Lemma next_collision s draws :
  ¬ on_board s (target s) ∨ tagged s (target s) S0 →
  next s draws = Ok (PyBool true, set_end (set_move_lock s false) true, draws).
Proof.
  intros H. unfold next. cbn [_snake_row _snake_col _snake_direction _row _col _board set_move_lock].
  pose proof (off_board_test s (target s)) as Htest. simpl in Htest.
  destruct (negb _ || negb _) eqn:E; [done|].
  destruct H as [H|H]; [by apply Htest in H|].
  unfold tagged in H. simpl in H. rewrite H. done.
Qed.

(** The other path: the snake moves, and eats or not. *)
Lemma next_running s draws t :
  on_board s (target s) → tagged s (target s) t → t ≠ S0 →
  next s draws =
    '(ate_apple, s1) ←? move_snake (set_move_lock s false) (target s).1 (target s).2;
    if ate_apple : bool then
      '(s2, draws') ←? generate_apple s1 draws; Ok (PyNone, s2, draws')
    else Ok (PyNone, s1, draws).
Proof.
  intros Hon Ht HS0. unfold next.
  cbn [_snake_row _snake_col _snake_direction _row _col _board set_move_lock].
  pose proof (off_board_test s (target s)) as Htest. simpl in Htest.
  destruct (negb _ || negb _) eqn:E; [by apply Htest in Hon|].
  unfold tagged in Ht. simpl in Ht. rewrite Ht. cbn [bind].
  unfold tile_eqb. by rewrite bool_decide_eq_false_2.
Qed.

Lemma target_moving s : _snake_direction s ≠ (0, 0) → target s ≠ head s.
Proof.
  unfold target, head. destruct (_snake_direction s) as [dx dy]. simpl.
  intros Hd [= ? ?]. apply Hd. f_equal; lia.
Qed.

Lemma target_still s : _snake_direction s = (0, 0) → target s = head s.
Proof. unfold target, head. intros ->. simpl. f_equal; lia. Qed.

(** A tick with a direction, from a state where path and board agree: the
    state [s1] that [move_snake] reaches satisfies the full invariant. *)
Lemma next_moving s draws :
  Coherent s → _snake_direction s ≠ (0, 0) →
  on_board s (target s) → ¬ tagged s (target s) S0 →
  ∃ t s1,
    tagged s (target s) t
    ∧ move_snake (set_move_lock s false) (target s).1 (target s).2
      = Ok (tile_eqb t Apple, s1)
    ∧ next s draws =
        (if tile_eqb t Apple then
           '(s2, draws') ←? generate_apple s1 draws; Ok (PyNone, s2, draws')
         else Ok (PyNone, s1, draws))
    ∧ Inv s1
    ∧ _snake s1 = locations s ++ [target s]
    ∧ _snake_length s1 = (if tile_eqb t Apple then _snake_length s + 1 else _snake_length s)
    ∧ head s1 = target s
    ∧ _snake_direction s1 = _snake_direction s ∧ _end s1 = _end s
    ∧ _move_lock s1 = false ∧ _row s1 = _row s ∧ _col s1 = _col s
    ∧ get_apple s1 = get_apple s
    ∧ ∀ p, on_board s p → p ∉ _snake s → p ≠ target s →
           board_get (_board s1) p.1 p.2 = board_get (_board s) p.1 p.2.
Proof.
  intros Hc Hd Hon HS0.
  destruct (move_snake_moving (set_move_lock s false) (target s))
    as (t & b' & Ht & Hrun & Hc1 & Hnd1 & Hh1 & Hframe);
    [by apply Coherent_set_move_lock|done|exact (target_moving s Hd)|done|].
  assert (t ≠ S0) as HtS0 by (by intros ->).
  eexists t, _. split; [done|]. split; [exact Hrun|].
  split. { rewrite (next_running s draws t Hon Ht HtS0), Hrun. done. }
  split. { split; [exact Hc1|exact Hnd1|exact Hh1|by intros ?]. }
  split_and!; try done.
Qed.

(** A tick before any direction was chosen. *)
Lemma next_still s draws :
  Coherent s → _snake_direction s = (0, 0) → _snake_length s = 1 →
  ∃ s', next s draws = Ok (PyNone, s', draws) ∧ Stalled s'
        ∧ _snake s' = [head s; head s] ∧ _snake_length s' = 1
        ∧ head s' = head s
        ∧ _snake_direction s' = _snake_direction s ∧ _end s' = _end s
        ∧ _move_lock s' = false ∧ _row s' = _row s ∧ _col s' = _col s
        ∧ get_apple s' = get_apple s.
Proof.
  intros Hc Hd HL.
  pose proof (target_still s Hd) as Htgt.
  pose proof (head_on_board s Hc) as Hh.
  destruct (board_get_total _ _ (_board s) (head s) (coh_board s Hc) Hh) as [t Ht].
  assert (t ≠ S0) as HtS0.
  { intros ->. apply (coh_S0 s Hc _ Hh) in Ht. by destruct Ht. }
  destruct (move_snake_still (set_move_lock s false)) as (b' & Hrun & Hst & _);
    [by apply Coherent_set_move_lock|done|].
  eexists. split.
  { rewrite (next_running s draws t); [|by rewrite Htgt..|done].
    rewrite Htgt. simpl in Hrun |- *. rewrite Hrun. done. }
  by split_and!.
Qed.

(** ** The cells of the grid *)

Lemma elem_of_all_cells s p : p ∈ all_cells s ↔ on_board s p.
Proof.
  unfold all_cells, on_board, in_grid. rewrite list_elem_of_bind. split.
  - intros (r & Hp & Hr). apply list_elem_of_fmap in Hr as (i & -> & Hi).
    apply elem_of_seq in Hi. apply list_elem_of_bind in Hp as (c & Hp & Hc).
    apply list_elem_of_fmap in Hc as (j & -> & Hj). apply elem_of_seq in Hj.
    apply list_elem_of_singleton in Hp as ->. simpl. lia.
  - intros [Hr Hc]. exists p.1. split.
    + apply list_elem_of_bind. exists p.2. split; [destruct p; by left|].
      apply list_elem_of_fmap. exists (Z.to_nat p.2). split; [lia|]. apply elem_of_seq. lia.
    + apply list_elem_of_fmap. exists (Z.to_nat p.1). split; [lia|]. apply elem_of_seq. lia.
Qed.

Lemma NoDup_all_cells s : NoDup (all_cells s).
Proof.
  unfold all_cells. apply NoDup_bind.
  - intros r1 r2 p _ _ H1 H2.
    apply list_elem_of_bind in H1 as (c1 & ->%list_elem_of_singleton & _).
    apply list_elem_of_bind in H2 as (c2 & [= -> _]%list_elem_of_singleton & _). done.
  - intros r _. apply NoDup_bind.
    + intros c1 c2 p _ _ ->%list_elem_of_singleton [= ->]%list_elem_of_singleton. done.
    + intros. apply NoDup_singleton.
    + apply NoDup_fmap; [|apply NoDup_seq]. intros ???. lia.
  - apply NoDup_fmap; [|apply NoDup_seq]. intros ???. lia.
Qed.

(** A list of cells described by membership. *)
Lemma cells_filter_perm s (P : Z * Z → Prop) `{∀ p, Decision (P p)} (l : list (Z * Z)) :
  NoDup l → (∀ p, p ∈ l → on_board s p) → (∀ p, on_board s p → P p ↔ p ∈ l) →
  filter P (all_cells s) ≡ₚ l.
Proof.
  intros Hnd Hon HP. apply NoDup_Permutation; [|done|].
  - apply NoDup_filter, NoDup_all_cells.
  - intros p. rewrite list_elem_of_filter, elem_of_all_cells. split.
    + intros [Hp Hb]. by apply HP.
    + intros Hp. split; [|by apply Hon]. apply HP; [by apply Hon|done].
Qed.

(** Under the invariant the tiles ['S1'] and ['S0'] are exactly on the part
    of the path that the snake covers. *)
Lemma Inv_snake_cells s : Inv s → snake_cells s ≡ₚ locations s.
Proof.
  intros [Hc Hnd Hhead _]. pose proof (head_on_board s Hc) as Hh.
  destruct (locations_drop s Hc) as [Hloc _].
  pose proof (head_in_locations s Hc) as Hlast.
  destruct Hc as [_ _ _ _ _ Hon _ Hndl HS0 HS1].
  apply cells_filter_perm; [done| |].
  - intros p Hp. rewrite Hloc in Hp. apply subseteq_drop in Hp.
    by eapply Forall_forall in Hon.
  - intros p Hp. unfold snake_tagged. rewrite (HS0 p Hp). split.
    + intros [HS|[? _]]; [|done]. apply (HS1 p Hp) in HS as ->. by eapply last_Some_elem_of.
    + intros Hin. destruct (decide (p = head s)) as [->|]; auto.
Qed.

Lemma Inv_head_cells s : Inv s → cells_tagged s S1 = [head s].
Proof.
  intros [Hc _ Hhead _]. pose proof (head_on_board s Hc) as Hh.
  apply Permutation_singleton_r. apply cells_filter_perm; [apply NoDup_singleton| |].
  - by intros p ->%list_elem_of_singleton.
  - intros p Hp. rewrite list_elem_of_singleton. split; [by apply (coh_S1 s Hc)|by intros ->].
Qed.

(** After a tick without direction no tile of the board is ['S1'] or ['S0']. *)
Lemma Stalled_snake_cells s : Stalled s → snake_cells s = [].
Proof.
  intros [Hc Hpath HL HN]. apply Permutation_nil_r.
  apply cells_filter_perm; [constructor|by intros p ?%elem_of_nil|].
  intros p Hp. unfold snake_tagged. split; [|by intros ?%elem_of_nil].
  intros [HS|HS]; exfalso.
  - pose proof (coh_S1 s Hc p Hp HS) as ->. unfold tagged in *. congruence.
  - apply (coh_S0 s Hc p Hp) in HS as [Hin Hne]. apply Hne.
    destruct (locations_drop s Hc) as [Hloc _]. rewrite Hloc, Hpath, HL in Hin.
    simpl in Hin. by apply list_elem_of_singleton in Hin.
Qed.

(** ** Which exception *)

Lemma bind_Raise {A B} (m : result A) (k : A → result B) e :
  bind m k = Raise e → m = Raise e ∨ ∃ a, m = Ok a ∧ k a = Raise e.
Proof. destruct m as [a| |]; simpl; intros H; [right; by exists a|left; congruence|done]. Qed.

Lemma py_getitem_Raise {A} (l : list A) i e : py_getitem l i = Raise e → e = IndexError.
Proof. unfold py_getitem. repeat case_match; congruence. Qed.

Lemma py_setitem_Raise {A} (l : list A) i x e : py_setitem l i x = Raise e → e = IndexError.
Proof. unfold py_setitem. repeat case_match; congruence. Qed.

Lemma board_get_Raise b r c e : board_get b r c = Raise e → e = IndexError.
Proof.
  unfold board_get. intros [H|(? & _ & H)]%bind_Raise; by eapply py_getitem_Raise.
Qed.

Lemma board_set_Raise b r c v e : board_set b r c v = Raise e → e = IndexError.
Proof.
  unfold board_set. intros [H|(? & _ & H)]%bind_Raise; [by eapply py_getitem_Raise|].
  apply bind_Raise in H as [H|(? & _ & H)]; by eapply py_setitem_Raise.
Qed.

Lemma generate_apple_Raise s draws e : generate_apple s draws = Raise e → e = IndexError.
Proof.
  unfold generate_apple. intros [H|([[ar ac] rest] & _ & H)]%bind_Raise.
  - induction draws as [|[r c] draws IH]; [done|]. simpl in H.
    apply bind_Raise in H as [H|(t & _ & H)]; [by eapply board_get_Raise|].
    destruct (tile_eqb t Nothing); [done|auto].
  - apply bind_Raise in H as [H|(? & _ & H)]; [by eapply board_set_Raise|done].
Qed.

(** ** [__init__] *)

Lemma board_get_replicate rows cols (p : Z * Z) :
  in_grid rows cols p →
  board_get (replicate (Z.to_nat rows) (replicate (Z.to_nat cols) Nothing)) p.1 p.2
  = Ok Nothing.
Proof.
  intros Hp. pose proof Hp as [Hr Hc].
  destruct (board_get_lookup rows cols
              (replicate (Z.to_nat rows) (replicate (Z.to_nat cols) Nothing)) p)
    as (line & t & Hline & Ht & _ & ->); [|done|].
  - split; [rewrite length_replicate; lia|].
    apply Forall_replicate. rewrite length_replicate. lia.
  - apply lookup_replicate in Hline as [-> _]. apply lookup_replicate in Ht as [-> _]. done.
Qed.

Lemma wf_board_replicate rows cols :
  0 ≤ rows → 0 ≤ cols →
  wf_board rows cols (replicate (Z.to_nat rows) (replicate (Z.to_nat cols) Nothing)).
Proof.
  intros. split; [rewrite length_replicate; lia|].
  apply Forall_replicate. rewrite length_replicate. lia.
Qed.

Lemma Inv_set_move_lock s l : Inv s → Inv (set_move_lock s l).
Proof. intros [Hc ? ? ?]. split; [by apply Coherent_set_move_lock|done..]. Qed.

Lemma first_state_spec row col (h : Z * Z) :
  2 ≤ row → 2 ≤ col → in_grid row col h →
  ∃ b1,
    board_set (replicate (Z.to_nat row) (replicate (Z.to_nat col) Nothing)) h.1 h.2 S1
    = Ok b1
    ∧ Inv (first_state row col h.1 h.2 b1)
    ∧ ∀ p, in_grid row col p →
           board_get b1 p.1 p.2 = if decide (p = h) then Ok S1 else Ok Nothing.
Proof.
  intros Hrow Hcol Hh.
  destruct (board_set_spec row col _ h S1 (wf_board_replicate row col ltac:(lia) ltac:(lia)) Hh)
    as (b1 & Hset & Hwf & Hget).
  assert (∀ p, in_grid row col p →
            board_get b1 p.1 p.2 = if decide (p = h) then Ok S1 else Ok Nothing) as Hget'.
  { intros p Hp. rewrite (Hget p Hp). by rewrite board_get_replicate. }
  exists b1. split; [done|]. split; [|done].
  destruct h as [hr hc]. simpl.
  split; [split| | |]; simpl; try done.
  - by left.
  - by apply Forall_singleton.
  - apply NoDup_singleton.
  - intros p Hp. unfold tagged, head. simpl. rewrite (Hget' p Hp).
    case_decide; (split; [done|]); intros [? ?]; [done|].
    unfold locations, py_slice_from in *. simpl in *.
    by apply list_elem_of_singleton in H0.
  - intros p Hp. unfold tagged, head. simpl. rewrite (Hget' p Hp). by case_decide.
  - apply NoDup_singleton.
  - unfold tagged, head. simpl. pose proof (Hget' (hr, hc) Hh) as Hg.
    by rewrite decide_True in Hg.
Qed.

Lemma init_sound row col draws s rest :
  Forall (in_grid row col) draws →
  SnakeBoard_init row col draws = Ok (s, rest) →
  2 ≤ row ∧ 2 ≤ col ∧ _row s = row ∧ _col s = col
  ∧ Inv s ∧ _snake s = [head s] ∧ _snake_length s = 1
  ∧ _snake_direction s = (0, 0) ∧ _move_lock s = false ∧ _end s = false
  ∧ head s ∈ draws ∧ get_apple s ∈ draws
  ∧ ∀ p, on_board s p →
         board_get (_board s) p.1 p.2 =
           if decide (p = get_apple s) then Ok Apple
           else if decide (p = head s) then Ok S1 else Ok Nothing.
Proof.
  intros Hon H. unfold SnakeBoard_init in H.
  destruct (Z.ltb_spec row 2) as [|Hrow], (Z.ltb_spec col 2) as [|Hcol]; simpl in H; try done.
  destruct draws as [|[hr hc] draws1]; [done|].
  apply Forall_cons in Hon as [Hh Hon1].
  destruct (first_state_spec row col (hr, hc)) as (b1 & Hset & Hinv & Hget); [done..|].
  simpl in Hset. rewrite Hset in H. cbn [bind] in H. fold (first_state row col hr hc b1) in H.
  apply bind_Ok in H as ([s1 rest1] & Hgen & [= <- <-]).
  pose proof (Inv_generate_apple _ _ _ _ Hinv Hon1 Hgen) as Hinv1.
  destruct (Coherent_generate_apple _ _ _ _ (inv_coherent _ Hinv) Hon1 Hgen)
    as (_ & Hpath & Hlen & Hhd & Hdir & Hend & _ & Hrow' & Hcol' & Hain & Ha & HaN & HaA & Hframe).
  split_and!; try done.
  - by apply Inv_set_move_lock.
  - simpl. rewrite Hpath. unfold head in *. simpl in *. congruence.
  - unfold head in *. simpl in *. injection Hhd as -> ->. left.
  - by right.
  - intros p Hp. unfold on_board in Hp. simpl in Hp. rewrite Hrow', Hcol' in Hp. simpl in Hp.
    change (get_apple (set_move_lock s1 false)) with (get_apple s1).
    change (head (set_move_lock s1 false)) with (head s1). simpl.
    case_decide as Hpa; [by subst p|].
    pose proof (Hframe p S1 Hp Hpa) as Hf1. pose proof (Hframe p Nothing Hp Hpa) as Hf2.
    unfold tagged in Hf1, Hf2. simpl in Hf1, Hf2. rewrite (Hget p Hp) in Hf1, Hf2.
    rewrite Hhd. unfold head. simpl. case_decide.
    + by apply Hf1.
    + by apply Hf2.
Qed.

Lemma init_total row col draws :
  2 ≤ row → 2 ≤ col → Forall (in_grid row col) draws →
  (∃ h draws1, draws = h :: draws1 ∧ Exists (λ p, p ≠ h) draws1) →
  ∃ s rest, SnakeBoard_init row col draws = Ok (s, rest).
Proof.
  intros Hrow Hcol Hon ([hr hc] & draws1 & -> & Hex).
  apply Forall_cons in Hon as [Hh Hon1]. unfold SnakeBoard_init.
  destruct (Z.ltb_spec row 2), (Z.ltb_spec col 2); try lia. simpl.
  destruct (first_state_spec row col (hr, hc)) as (b1 & Hset & Hinv & Hget); [done..|].
  simpl in Hset. rewrite Hset. cbn [bind]. fold (first_state row col hr hc b1).
  destruct (generate_apple_total (first_state row col hr hc b1) draws1)
    as (s1 & rest & Hgen); [apply (coh_board _ (inv_coherent _ Hinv))|done| |].
  - apply Exists_exists in Hex as (p & Hin & Hne). apply Exists_exists. exists p.
    split; [done|]. unfold tagged. simpl. rewrite Hget by (by eapply Forall_forall in Hon1).
    by rewrite decide_False.
  - rewrite Hgen. simpl. eauto.
Qed.

Lemma init_raises row col draws :
  SnakeBoard_init row col draws = Raise InvalidGridSizeException ↔ row < 2 ∨ col < 2.
Proof.
  unfold SnakeBoard_init.
  destruct (Z.ltb_spec row 2) as [|Hrow], (Z.ltb_spec col 2) as [|Hcol]; simpl;
    try (split; [intros; lia|done]).
  split; [|lia]. destruct draws as [|[hr hc] draws1]; [done|]. intros H.
  apply bind_Raise in H as [H|(b1 & _ & H)]; [by apply board_set_Raise in H|].
  apply bind_Raise in H as [H|([s1 rest] & _ & H)]; [by apply generate_apple_Raise in H|done].
Qed.

(** ** [update_direction] *)

Lemma direction_eqb_eq a b : direction_eqb a b = true ↔ a = b.
Proof.
  unfold direction_eqb. destruct a, b. simpl.
  rewrite andb_true_iff, !Z.eqb_eq. split; [intros [-> ->]; done|by intros [= -> ->]].
Qed.

Lemma direction_eqb_neq a b : direction_eqb a b = false ↔ a ≠ b.
Proof.
  rewrite <- direction_eqb_eq. destruct (direction_eqb a b); split; done.
Qed.

Lemma SnakeBoard_eta s :
  set_move_lock (set_snake_direction s (_snake_direction s)) (_move_lock s) = s.
Proof. by destruct s. Qed.

(** [update_direction] touches the direction and the lock only, and a key
    never brings the direction back to [(0, 0)]. *)
Lemma update_direction_fields s k :
  ∃ d l, update_direction s (KEY_DICT k) = set_move_lock (set_snake_direction s d) l
         ∧ (d = (0, 0) → _snake_direction s = (0, 0)).
Proof.
  unfold update_direction. destruct s as [? ? ? dir ? ? ? ? ? ? ? lock]. simpl.
  destruct lock; [by exists dir, true|].
  destruct (direction_eqb dir (0, 0)) eqn:E0; simpl.
  - destruct (KEY_DICT k) as [h v] eqn:Ek. simpl.
    destruct (negb _); [exists (h, v), true|exists (h, v), false];
      (split; [done|]); destruct k; simpl in Ek; congruence.
  - destruct (KEY_DICT k) as [h v] eqn:Ek. simpl.
    destruct (negb _); [|by exists dir, false].
    exists (h, v), true. split; [done|]. destruct k; simpl in Ek; congruence.
Qed.

Lemma update_direction_locked s d : _move_lock s = true → update_direction s d = s.
Proof. intros H. unfold update_direction. by rewrite H. Qed.

Lemma handle_events_locked s events : _move_lock s = true → handle_events s events = s.
Proof.
  intros H. unfold handle_events. induction events as [|k events IH]; [done|].
  simpl. by rewrite update_direction_locked.
Qed.

(** The reverse of the current direction changes nothing. *)
Lemma update_direction_opposite s :
  update_direction s (opposite (_snake_direction s)) = s.
Proof.
  unfold update_direction, opposite.
  destruct s as [? ? ? [cx cy] ? ? ? ? ? ? ? lock]. simpl.
  destruct lock; [done|].
  destruct (direction_eqb (cx, cy) (0, 0)) eqn:E0; simpl.
  - by apply direction_eqb_eq in E0 as [= -> ->].
  - by replace (- cx * -1 =? cx) with true by (symmetry; apply Z.eqb_eq; lia).
Qed.

(** A turn by a quarter is taken and locks; the current direction again
    changes nothing. *)
Lemma update_direction_keys s k0 k :
  _move_lock s = false → _snake_direction s = KEY_DICT k0 →
  update_direction s (KEY_DICT k) =
    if decide (KEY_DICT k = KEY_DICT k0 ∨ KEY_DICT k = opposite (KEY_DICT k0)) then s
    else set_move_lock (set_snake_direction s (KEY_DICT k)) true.
Proof.
  intros Hl Hd. unfold update_direction. rewrite Hl, Hd.
  destruct k0, k; simpl; rewrite Hd; simpl; done.
Qed.

Lemma Inv_update_direction s k : Inv s → Inv (update_direction s (KEY_DICT k)).
Proof.
  intros [Hc Hnd Hh Hpre]. destruct (update_direction_fields s k) as (d & l & -> & Hd).
  split; [by apply Coherent_set_move_lock, Coherent_set_snake_direction|done|done|].
  simpl. auto.
Qed.

Lemma Stalled_update_direction s k : Stalled s → Stalled (update_direction s (KEY_DICT k)).
Proof.
  intros [Hc Hp HL Hh]. destruct (update_direction_fields s k) as (d & l & -> & Hd).
  split; [by apply Coherent_set_move_lock, Coherent_set_snake_direction|done..].
Qed.

Lemma update_direction_end s d : _end (update_direction s d) = _end s.
Proof.
  unfold update_direction. destruct d as [h v].
  destruct (_move_lock s); [done|].
  destruct (direction_eqb _ _); simpl; by destruct (negb _).
Qed.

(** ** What every call of [next] does to the lock, the direction and the flag *)

Lemma move_snake_fields s r c ate s1 :
  move_snake s r c = Ok (ate, s1) →
  _move_lock s1 = _move_lock s ∧ _snake_direction s1 = _snake_direction s
  ∧ _end s1 = _end s.
Proof. unfold move_snake. intros H. inv_bind H. by injection H as <- <-. Qed.

Lemma generate_apple_fields s draws s' rest :
  generate_apple s draws = Ok (s', rest) →
  _move_lock s' = _move_lock s ∧ _snake_direction s' = _snake_direction s
  ∧ _end s' = _end s.
Proof.
  unfold generate_apple. intros H. apply bind_Ok in H as ([[ar ac] rest'] & _ & H).
  inv_bind H. by injection H as <- <-.
Qed.

Lemma next_fields s draws r s' rest :
  next s draws = Ok (r, s', rest) →
  _move_lock s' = false ∧ _snake_direction s' = _snake_direction s
  ∧ ((r = PyBool true ∧ _end s' = true) ∨ (r = PyNone ∧ _end s' = _end s)).
Proof.
  unfold next. intros H.
  destruct (negb _ || negb _); [injection H as <- <- <-; auto|].
  apply bind_Ok in H as (t & _ & H).
  destruct (tile_eqb t S0); [injection H as <- <- <-; auto|].
  apply bind_Ok in H as ([ate s1] & Hmove & H).
  apply move_snake_fields in Hmove as (Hl & Hd & He). simpl in Hl, Hd, He.
  destruct ate.
  - apply bind_Ok in H as ([s2 rest2] & Hgen & [= <- <- <-]).
    apply generate_apple_fields in Hgen as (Hl2 & Hd2 & He2).
    split; [congruence|]. split; [congruence|]. right. split; [done|congruence].
  - injection H as <- <- <-. auto.
Qed.

(** ** The reachable states *)

Lemma reachable_invariant stalled s :
  reachable stalled s →
  _end s = false ∧ if stalled then Stalled s else Inv s.
Proof.
  induction 1 as [row col draws s rest Hon Hinit
                 |stalled s k Hreach [Hend IH]
                 |stalled s draws r s' rest Hreach [Hend IH] Hon Hnext Hend'].
  - by destruct (init_sound row col draws s rest Hon Hinit)
      as (_ & _ & _ & _ & ? & _ & _ & _ & _ & ? & _).
  - rewrite update_direction_end. split; [done|].
    destruct stalled; [by apply Stalled_update_direction|by apply Inv_update_direction].
  - split; [done|].
    assert (Coherent s ∧ (_snake_direction s = (0, 0) → _snake_length s = 1)) as [Hc Hpre].
    { destruct stalled; [destruct IH|destruct IH]; auto. }
    destruct (direction_eqb (_snake_direction s) (0, 0)) eqn:E0.
    + apply direction_eqb_eq in E0.
      destruct (next_still s draws Hc E0 (Hpre E0)) as (s1 & Hrun & Hst & _).
      rewrite Hrun in Hnext. by injection Hnext as <- <- <-.
    + apply direction_eqb_neq in E0.
      destruct (decide (on_board s (target s))) as [Hon_t|Hoff]; last first.
      { rewrite next_collision in Hnext by auto. injection Hnext as <- <- <-. done. }
      destruct (decide (tagged s (target s) S0)) as [HS0|HS0].
      { rewrite next_collision in Hnext by auto. injection Hnext as <- <- <-. done. }
      destruct (next_moving s draws Hc E0 Hon_t HS0)
        as (t & s1 & Ht & _ & Hrun & Hinv1 & _ & _ & _ & _ & _ & _ & Hrow & Hcol & _).
      rewrite Hrun in Hnext. destruct (tile_eqb t Apple).
      * apply bind_Ok in Hnext as ([s2 rest2] & Hgen & [= <- <- <-]).
        eapply Inv_generate_apple; [done| |done].
        unfold on_board. by rewrite Hrow, Hcol.
      * by injection Hnext as <- <- <-.
Qed.

(** What the proofs below need of a reachable state. *)
Lemma reachable_coherent stalled s :
  reachable stalled s →
  _end s = false ∧ Coherent s
  ∧ (_snake_direction s = (0, 0) → _snake_length s = 1)
  ∧ (tagged s (head s) S1 ∨ tagged s (head s) Nothing).
Proof.
  intros Hreach. destruct (reachable_invariant stalled s Hreach) as [Hend H].
  destruct stalled; destruct H; split_and!; auto.
Qed.

(** ** The example game *)

Lemma game0_init : SnakeBoard_init 4 4 game_draws = Ok (game0, []).
Proof. reflexivity. Qed.

Lemma game_draws_in_grid : Forall (in_grid 4 4) game_draws.
Proof. repeat constructor; simpl; lia. Qed.

Lemma game0_reachable : reachable false game0.
Proof. exact (reach_init 4 4 game_draws game0 [] game_draws_in_grid game0_init). Qed.

Lemma game_stalled_reachable : reachable true game_stalled.
Proof.
  exact (reach_next false game0 [] PyNone game_stalled [] game0_reachable
           (Forall_nil_2 _) eq_refl eq_refl).
Qed.

Lemma game1_reachable : reachable false game1.
Proof. exact (reach_direction false game0 K_RIGHT game0_reachable). Qed.

Lemma game2_reachable : reachable false game2.
Proof.
  exact (reach_next false game1 [] PyNone game2 [] game1_reachable
           (Forall_nil_2 _) eq_refl eq_refl).
Qed.

Lemma game3_reachable : reachable false game3.
Proof.
  exact (reach_next false game2 [] PyNone game3 [] game2_reachable
           (Forall_nil_2 _) eq_refl eq_refl).
Qed.

Lemma game_wall_reachable : reachable false game_wall.
Proof. exact (reach_direction false game3 K_UP game3_reachable). Qed.

(** ** The representation invariant of the snake *)

Lemma old_locations_take s :
  Coherent s →
  old_locations s = take (length (_snake s) - Z.to_nat (_snake_length s)) (_snake s).
Proof.
  intros [_ _ _ HL Hpath _ _ _ _ _].
  unfold old_locations, py_slice_to, get_path, get_length.
  destruct (Z.ltb_spec (Z.of_nat (length (_snake s)) - _snake_length s) 0); [lia|].
  f_equal. lia.
Qed.

Lemma Inv_old_locations s p : Inv s → p ∈ old_locations s → ¬ snake_tagged s p.
Proof.
  intros Hinv Hp. pose proof Hinv as [Hc Hnd Hhead _].
  destruct (locations_drop s Hc) as [Hloc _].
  rewrite (old_locations_take s Hc) in Hp.
  assert (on_board s p) as Hon.
  { apply subseteq_take in Hp. pose proof (coh_on_board s Hc) as Hall.
    by eapply Forall_forall in Hall. }
  rewrite <- (take_drop (length (_snake s) - Z.to_nat (_snake_length s)) (_snake s)) in Hnd.
  apply NoDup_app in Hnd as (_ & Hdisj & _). specialize (Hdisj p Hp). rewrite <- Hloc in Hdisj.
  intros [HS1|HS0].
  - apply (coh_S1 s Hc p Hon) in HS1 as ->. apply Hdisj.
    eapply last_Some_elem_of, head_in_locations, Hc.
  - apply (coh_S0 s Hc p Hon) in HS0 as [? _]. done.
Qed.

(** C1, as amended.  In every state reached from [SnakeBoard(row, col)] by
    key presses and ticks that do not end the game, the path has at most
    [length + 1] entries.  Provided the most recent tick (if there was one)
    was taken with a direction other than [(0, 0)]: the cells tagged ['S1']
    or ['S0'] are exactly the last [length] entries of the path, there are
    [length] of them, the only ['S1'] is at the head, which is the last
    entry, and no earlier entry is tagged. *)
Theorem snake_representation_invariant (stalled : bool) (s : SnakeBoard) :
  reachable stalled s →
  Z.of_nat (length (get_path s)) ≤ get_length s + 1
  ∧ (stalled = false →
     snake_cells s ≡ₚ locations s
     ∧ Z.of_nat (length (snake_cells s)) = get_length s
     ∧ Z.of_nat (length (locations s)) = get_length s
     ∧ cells_tagged s S1 = [head s]
     ∧ last (get_path s) = Some (head s)
     ∧ (∀ p, p ∈ old_locations s → ¬ snake_tagged s p)).
Proof.
  intros Hreach. destruct (reachable_coherent stalled s Hreach) as (_ & Hc & _).
  split.
  { unfold get_path, get_length. destruct (coh_path s Hc); lia. }
  intros ->. destruct (reachable_invariant false s Hreach) as [_ Hinv].
  destruct (locations_drop s Hc) as [_ Hlen].
  pose proof (Inv_snake_cells s Hinv) as Hperm.
  split_and!.
  - done.
  - by rewrite Hperm.
  - done.
  - by apply Inv_head_cells.
  - apply (coh_head s Hc).
  - intros p. by apply Inv_old_locations.
Qed.

Lemma snake_representation_invariant_witness :
  reachable false game3
  ∧ Z.of_nat (length (get_path game3)) ≤ get_length game3 + 1
  ∧ snake_cells game3 ≡ₚ locations game3
  ∧ Z.of_nat (length (snake_cells game3)) = get_length game3
  ∧ Z.of_nat (length (locations game3)) = get_length game3
  ∧ cells_tagged game3 S1 = [head game3]
  ∧ last (get_path game3) = Some (head game3)
  ∧ (∀ p, p ∈ old_locations game3 → ¬ snake_tagged game3 p).
Proof.
  split; [exact game3_reachable|].
  split; [exact (proj1 (snake_representation_invariant false game3 game3_reachable))|].
  exact (proj2 (snake_representation_invariant false game3 game3_reachable) eq_refl).
Defined.

(** C1, as stated, fails after a tick taken before any key: [game_stalled]
    is reached from the construction by one tick that does not end the game,
    its length is 1, and no cell of its board is tagged ['S1'] or ['S0']. *)
Lemma snake_representation_invariant_counterexample :
  reachable true game_stalled
  ∧ _end game_stalled = false
  ∧ get_length game_stalled = 1
  ∧ locations game_stalled = [(0, 0)]
  ∧ snake_cells game_stalled = []
  ∧ cells_tagged game_stalled S1 = []
  ∧ ¬ tagged game_stalled (head game_stalled) S1.
Proof.
  split; [exact game_stalled_reachable|]. by vm_compute.
Qed.

(** ** What [next] returns *)

(** Whenever [next] returns, the value is [True] and the game has ended, or it
    is [None] and the flag [_end] is as before; it is never [False]. *)
Lemma next_value s draws r s' rest :
  next s draws = Ok (r, s', rest) →
  r ≠ PyBool false
  ∧ ((r = PyBool true ∧ _end s' = true) ∨ (r = PyNone ∧ _end s' = _end s)).
Proof.
  intros H. destruct (next_fields s draws r s' rest H) as (_ & _ & Hr).
  split; [|done]. by destruct Hr as [[-> _]|[-> _]].
Qed.

(** In a reachable state [next] returns, provided that one of the draws falls
    on an ['N'] cell off the path; the draws are read only when the apple is
    eaten. *)
Lemma next_total stalled s draws :
  reachable stalled s → Forall (on_board s) draws →
  Exists (λ p, tagged s p Nothing ∧ p ∉ get_path s) draws →
  ∃ r s' rest, next s draws = Ok (r, s', rest).
Proof.
  intros Hreach Hon Hex.
  destruct (reachable_coherent stalled s Hreach) as (_ & Hc & Hpre & _).
  destruct (decide (_snake_direction s = (0, 0))) as [Hdir|Hdir].
  { destruct (next_still s draws Hc Hdir (Hpre Hdir)) as (s' & Hrun & _). eauto. }
  destruct (decide (on_board s (target s))) as [Hon_t|Hoff]; last first.
  { rewrite next_collision by auto. eauto. }
  destruct (decide (tagged s (target s) S0)) as [HS0|HS0].
  { rewrite next_collision by auto. eauto. }
  destruct (next_moving s draws Hc Hdir Hon_t HS0)
    as (t & s1 & Ht & _ & Hrun & Hinv1 & _ & _ & _ & _ & _ & _ & Hrow1 & Hcol1 & _ & Hframe).
  rewrite Hrun. unfold tile_eqb. case_bool_decide as HtA; [|eauto]. subst t.
  destruct (generate_apple_total s1 draws) as (s' & rest & Hgen).
  - apply (coh_board s1 (inv_coherent s1 Hinv1)).
  - unfold on_board. by rewrite Hrow1, Hcol1.
  - apply Exists_exists in Hex as (p & Hin & HpN & Hpath). apply Exists_exists.
    exists p. split; [done|]. unfold tagged.
    rewrite Hframe; [done|by eapply Forall_forall in Hon|done|].
    intros ->. unfold tagged in *. congruence.
  - rewrite Hgen. simpl. eauto.
Qed.

(** C2.  The docstring of [next] promises [False] when the game has not
    ended; the body ends without [return] on that path, so the call returns
    [None].  Here is such a tick: the snake of [game1] moves from [(0, 0)] to
    [(0, 1)], the game goes on, and the value returned is [None]. *)
Theorem next_returns_None_on_a_running_tick :
  next game1 [] = Ok (PyNone, game2, [])
  ∧ _end game1 = false ∧ _end game2 = false
  ∧ head game1 = (0, 0) ∧ head game2 = (0, 1).
Proof. by vm_compute. Qed.

(** ** [update_direction] and the lock *)

(** C3, as amended.  With the lock clear and the current direction one of the
    four unit vectors, a key other than the one of the reverse direction does
    this: a key for one of the two perpendicular directions is accepted,
    [update_direction] sets the direction and the lock; the key of the
    current direction leaves the state as it is, lock clear. *)
Theorem update_direction_turn (s : SnakeBoard) (k0 k : key) :
  _snake_direction s = KEY_DICT k0 → _move_lock s = false →
  KEY_DICT k ≠ opposite (KEY_DICT k0) →
  update_direction s (KEY_DICT k)
  = if decide (k = k0) then s
    else set_move_lock (set_snake_direction s (KEY_DICT k)) true.
Proof.
  intros Hd Hl Hrev. rewrite (update_direction_keys s k0 k Hl Hd).
  destruct (decide (k = k0)) as [->|Hne].
  - rewrite decide_True; [done|]. by left.
  - rewrite decide_False; [done|]. intros [E|E]; [|done]. by destruct k, k0.
Qed.

Lemma update_direction_turn_witness :
  update_direction game3 (KEY_DICT K_UP)
  = set_move_lock (set_snake_direction game3 (KEY_DICT K_UP)) true
  ∧ update_direction game3 (KEY_DICT K_RIGHT) = game3.
Proof.
  split.
  - exact (update_direction_turn game3 K_RIGHT K_UP eq_refl eq_refl
             ltac:(discriminate)).
  - exact (update_direction_turn game3 K_RIGHT K_RIGHT eq_refl eq_refl
             ltac:(discriminate)).
Defined.

(** C3, as stated, fails for the key of the current direction: in [game3]
    the direction is [(1, 0)] and the lock is clear; [K_RIGHT] is not the
    reverse, and the call leaves the lock clear. *)
Lemma update_direction_turn_counterexample :
  _snake_direction game3 = (1, 0)
  ∧ _move_lock game3 = false
  ∧ KEY_DICT K_RIGHT ≠ opposite (_snake_direction game3)
  ∧ _move_lock (update_direction game3 (KEY_DICT K_RIGHT)) = false
  ∧ update_direction game3 (KEY_DICT K_RIGHT)
    ≠ set_move_lock (set_snake_direction game3 (KEY_DICT K_RIGHT)) true.
Proof. by vm_compute. Qed.

(** C4.  With a direction already set, the exact reverse of it is rejected:
    the call returns the state it was given, so the direction, the lock and
    every other field are as before. *)
Theorem update_direction_reverse_rejected (s : SnakeBoard) :
  _snake_direction s ≠ (0, 0) →
  update_direction s (opposite (_snake_direction s)) = s.
Proof. intros _. apply update_direction_opposite. Qed.

Lemma update_direction_reverse_rejected_witness :
  _snake_direction game3 ≠ (0, 0)
  ∧ opposite (_snake_direction game3) = KEY_DICT K_LEFT
  ∧ update_direction game3 (opposite (_snake_direction game3)) = game3.
Proof.
  assert (_snake_direction game3 ≠ (0, 0)) as H by (by vm_compute).
  split; [exact H|]. split; [reflexivity|].
  exact (update_direction_reverse_rejected game3 H).
Defined.



(** The sequence on the example game: [K_DOWN] is accepted, [K_LEFT] in the
    same tick is not, and after the tick [K_LEFT] is. *)
Example lock_sequencing_run :
  let s := update_direction game2 (KEY_DICT K_DOWN) in
  _move_lock game2 = false ∧ _move_lock s = true
  ∧ update_direction s (KEY_DICT K_LEFT) = s
  ∧ ∃ s', next s [] = Ok (PyNone, s', [])
          ∧ _move_lock s' = false
          ∧ _snake_direction (update_direction s' (KEY_DICT K_LEFT)) = (-1, 0)
          ∧ _move_lock (update_direction s' (KEY_DICT K_LEFT)) = true.
Proof. repeat (split; [reflexivity|]). eexists. by vm_compute. Qed.

(** ** Collisions *)

(** C6.  In a running game, when the position computed for the head is off
    the board, or holds ['S0'], [next] returns [True] and the state it
    leaves differs from the one it was given in the flag [_end], now set,
    and in the lock, now clear, only: board, path, head and length are as
    before. *)
Theorem collision_atomicity (s : SnakeBoard) (draws : list (Z * Z)) :
  _end s = false →
  ¬ on_board s (target s) ∨ tagged s (target s) S0 →
  ∃ s', next s draws = Ok (PyBool true, s', draws)
        ∧ s' = set_end (set_move_lock s false) true
        ∧ get_end s' = true
        ∧ _board s' = _board s
        ∧ get_path s' = get_path s
        ∧ head s' = head s
        ∧ get_length s' = get_length s.
Proof.
  intros _ H. eexists. split; [by apply next_collision|]. by split_and!.
Qed.

Lemma collision_atomicity_witness :
  ¬ on_board game_wall (target game_wall)
  ∧ ∃ s', next game_wall [] = Ok (PyBool true, s', [])
          ∧ s' = set_end (set_move_lock game_wall false) true
          ∧ get_end s' = true
          ∧ _board s' = _board game_wall
          ∧ get_path s' = get_path game_wall
          ∧ head s' = head game_wall
          ∧ get_length s' = get_length game_wall.
Proof.
  assert (¬ on_board game_wall (target game_wall)) as H.
  { intros [[H _] _]. vm_compute in H. by apply H. }
  split; [exact H|].
  exact (collision_atomicity game_wall [] eq_refl (or_introl H)).
Defined.

(** The other collision: the head of [game_coiled] runs into the body. *)
Example self_collision :
  tagged game_coiled (target game_coiled) S0
  ∧ next game_coiled [] = Ok (PyBool true, set_end game_coiled true, []).
Proof. by vm_compute. Qed.

(** ** Construction *)

Lemma init_cells row col draws s rest :
  Forall (in_grid row col) draws →
  SnakeBoard_init row col draws = Ok (s, rest) →
  cells_tagged s Apple = [get_apple s] ∧ cells_tagged s S1 = [head s]
  ∧ on_board s (head s) ∧ on_board s (get_apple s) ∧ get_apple s ≠ head s.
Proof.
  intros Hon Hinit.
  destruct (init_sound row col draws s rest Hon Hinit)
    as (_ & _ & Hrow & Hcol & Hinv & _ & _ & _ & _ & _ & _ & Hain & Hget).
  pose proof (head_on_board s (inv_coherent s Hinv)) as Hh.
  assert (on_board s (get_apple s)) as Ha.
  { unfold on_board. rewrite Hrow, Hcol. by eapply Forall_forall in Hon. }
  assert (get_apple s ≠ head s) as Hne.
  { intros E. pose proof (inv_head s Hinv) as HS1. unfold tagged in HS1.
    rewrite (Hget _ Hh), decide_True in HS1 by done. done. }
  split_and!; try done.
  - apply Permutation_singleton_r. apply cells_filter_perm; [apply NoDup_singleton| |].
    + by intros p ->%list_elem_of_singleton.
    + intros p Hp. unfold tagged. rewrite (Hget p Hp), list_elem_of_singleton.
      repeat case_decide; split; done.
  - by apply Inv_head_cells.
Qed.

(** C7.  [SnakeBoard(row, col)] raises [InvalidGridSizeException] exactly when
    [row < 2] or [col < 2].  With both at least 2 it returns, as soon as one
    of the draws that follow the draw of the head falls on another cell; the
    state it returns has exactly one cell tagged ['A'], exactly one cell
    tagged ['S1'], which is the head and lies on the board, length 1,
    direction [(0, 0)], the lock clear and the flag [_end] false. *)
Theorem construction (row col : Z) (draws : list (Z * Z)) :
  (SnakeBoard_init row col draws = Raise InvalidGridSizeException ↔ row < 2 ∨ col < 2)
  ∧ (2 ≤ row → 2 ≤ col →
     Forall (in_grid row col) draws →
     (∃ h draws1, draws = h :: draws1 ∧ Exists (λ p, p ≠ h) draws1) →
     ∃ s rest,
       SnakeBoard_init row col draws = Ok (s, rest)
       ∧ get_row s = row ∧ get_col s = col
       ∧ cells_tagged s Apple = [get_apple s]
       ∧ cells_tagged s S1 = [head s]
       ∧ on_board s (head s)
       ∧ get_length s = 1
       ∧ get_direction s = (0, 0)
       ∧ _move_lock s = false
       ∧ get_end s = false).
Proof.
  split; [apply init_raises|]. intros Hrow Hcol Hon Hex.
  destruct (init_total row col draws Hrow Hcol Hon Hex) as (s & rest & Hinit).
  exists s, rest. split; [done|].
  destruct (init_sound row col draws s rest Hon Hinit)
    as (_ & _ & ? & ? & _ & _ & ? & ? & ? & ? & _).
  destruct (init_cells row col draws s rest Hon Hinit) as (? & ? & ? & _).
  by split_and!.
Qed.

Lemma construction_witness :
  (SnakeBoard_init 4 4 game_draws = Raise InvalidGridSizeException ↔ 4 < 2 ∨ 4 < 2)
  ∧ ∃ s rest,
      SnakeBoard_init 4 4 game_draws = Ok (s, rest)
      ∧ get_row s = 4 ∧ get_col s = 4
      ∧ cells_tagged s Apple = [get_apple s]
      ∧ cells_tagged s S1 = [head s]
      ∧ on_board s (head s)
      ∧ get_length s = 1
      ∧ get_direction s = (0, 0)
      ∧ _move_lock s = false
      ∧ get_end s = false.
Proof.
  split; [exact (proj1 (construction 4 4 game_draws))|].
  refine (proj2 (construction 4 4 game_draws) _ _ game_draws_in_grid _); [lia|lia|].
  exists (0, 0), [(0, 0); (0, 3)]. split; [reflexivity|].
  apply Exists_cons_tl, Exists_cons_hd. discriminate.
Defined.

(** The two failing constructions that the specification lists. *)
Example construction_fails :
  SnakeBoard_init 1 5 game_draws = Raise InvalidGridSizeException
  ∧ SnakeBoard_init 5 0 game_draws = Raise InvalidGridSizeException.
Proof. by split. Qed.

(** ** A tick before any key *)

(** C10.  When [next] is called while the direction is still [(0, 0)], it
    returns, the flag [_end] stays false and the head stays where it is. *)
Theorem pre_direction_tick (stalled : bool) (s : SnakeBoard) (draws : list (Z * Z)) :
  reachable stalled s → _snake_direction s = (0, 0) →
  ∃ s', next s draws = Ok (PyNone, s', draws)
        ∧ get_end s' = false
        ∧ _snake_row s' = _snake_row s ∧ _snake_col s' = _snake_col s.
Proof.
  intros Hreach Hdir.
  destruct (reachable_coherent stalled s Hreach) as (Hend & Hc & Hpre & _).
  destruct (next_still s draws Hc Hdir (Hpre Hdir))
    as (s' & Hrun & _ & _ & _ & Hhead & _ & Hend' & _).
  exists s'. injection Hhead as Hr Hcol. unfold get_end. split_and!; congruence.
Qed.

Lemma pre_direction_tick_witness :
  _snake_direction game0 = (0, 0)
  ∧ ∃ s', next game0 [] = Ok (PyNone, s', [])
          ∧ get_end s' = false
          ∧ _snake_row s' = _snake_row game0 ∧ _snake_col s' = _snake_col game0.
Proof.
  split; [reflexivity|].
  exact (pre_direction_tick false game0 [] game0_reachable eq_refl).
Defined.

(** ** The delay between ticks *)

Lemma py_int_of_float_floor (x : float) (m : positive) (e : Z) :
  Prim2SF x = S754_finite false m e →
  ∃ z, py_int_of_float x = Ok z ∧ floor_of_scaled z m e.
Proof.
  intros Hx. unfold py_int_of_float. rewrite Hx. eexists. split; [done|].
  split; intros He.
  - by rewrite Z.shiftl_mul_pow2.
  - rewrite Z.shiftl_div_pow2 by lia.
    assert (0 < 2 ^ (- e)) as Hpos by (apply Z.pow_pos_nonneg; lia).
    split.
    + rewrite Z.mul_comm. by apply Z.mul_div_le.
    + rewrite Z.mul_comm. by apply Z.mul_succ_div_gt.
Qed.

Lemma tick_delays_frozen float_pow (delay : Z) (lengths : list Z) :
  delay ≤ SPEED_CAP →
  tick_delays float_pow delay lengths = Ok (replicate (length lengths) delay).
Proof.
  intros Hd. induction lengths as [|len lengths IH]; [done|].
  simpl. unfold tick_delay. destruct (Z.gtb_spec delay SPEED_CAP); [lia|].
  simpl. by rewrite IH.
Qed.

(** C9.  Whatever the power function, provided [x ** 1] is [x]: while the
    delay is above [SPEED_CAP], a tick sets it to
    [int(STARTING_SPEED * 0.85 ** length)], which is the floor of that
    product when the product is positive; with [STARTING_SPEED = 500] and
    length 1 this is 425; and once the delay is at or below [SPEED_CAP]
    every later tick waits that same delay, whatever the lengths: the delay
    stays at the last value computed and is not brought back to
    [SPEED_CAP]. *)
Theorem tick_delay_formula (float_pow : float → Z → float) :
  (∀ x, float_pow x 1 = x) →
  (∀ delay len, SPEED_CAP < delay →
     tick_delay float_pow delay len
     = py_int_of_float (py_float_of_int STARTING_SPEED * float_pow 0.85 len)%float)
  ∧ (∀ delay len m e, SPEED_CAP < delay →
       Prim2SF (py_float_of_int STARTING_SPEED * float_pow 0.85 len)%float
       = S754_finite false m e →
       ∃ z, tick_delay float_pow delay len = Ok z ∧ floor_of_scaled z m e)
  ∧ tick_delay float_pow STARTING_SPEED 1 = Ok 425
  ∧ (∀ delay lengths, delay ≤ SPEED_CAP →
       tick_delays float_pow delay lengths = Ok (replicate (length lengths) delay)).
Proof.
  intros Hpow1.
  assert (∀ delay len, SPEED_CAP < delay →
            tick_delay float_pow delay len
            = py_int_of_float (py_float_of_int STARTING_SPEED * float_pow 0.85 len)%float)
    as Hformula.
  { intros delay len Hd. unfold tick_delay.
    destruct (Z.gtb_spec delay SPEED_CAP); [done|lia]. }
  split_and!.
  - done.
  - intros delay len m e Hd Hx. rewrite (Hformula delay len Hd).
    by apply py_int_of_float_floor.
  - rewrite Hformula by done. rewrite Hpow1. by vm_compute.
  - intros. by apply tick_delays_frozen.
Qed.

Lemma tick_delay_formula_witness :
  (∀ delay len, SPEED_CAP < delay →
     tick_delay float_pow_by_products delay len
     = py_int_of_float
         (py_float_of_int STARTING_SPEED * float_pow_by_products 0.85 len)%float)
  ∧ (∀ delay len m e, SPEED_CAP < delay →
       Prim2SF (py_float_of_int STARTING_SPEED * float_pow_by_products 0.85 len)%float
       = S754_finite false m e →
       ∃ z, tick_delay float_pow_by_products delay len = Ok z ∧ floor_of_scaled z m e)
  ∧ tick_delay float_pow_by_products STARTING_SPEED 1 = Ok 425
  ∧ (∀ delay lengths, delay ≤ SPEED_CAP →
       tick_delays float_pow_by_products delay lengths
       = Ok (replicate (length lengths) delay)).
Proof. exact (tick_delay_formula float_pow_by_products (λ x, eq_refl)). Defined.

(** The delays of a game in which the snake grows by one at every tick, for
    the power function [float_pow_by_products]: the delay drops below
    [SPEED_CAP = 250] at length 5 and stays at 221. *)
Example tick_delays_run :
  tick_delays float_pow_by_products STARTING_SPEED [1; 2; 3; 4; 5; 6; 7]
  = Ok [425; 361; 307; 261; 221; 221; 221].
Proof. by vm_compute. Qed.

(** * Further properties of the code *)

(** ** [generate_apple]: which draw is taken *)

Lemma generate_apple_loop_first b draws ar ac rest :
  generate_apple_loop b draws = Ok (ar, ac, rest) →
  ∃ skipped, draws = skipped ++ (ar, ac) :: rest
             ∧ Forall (λ p, board_get b p.1 p.2 ≠ Ok Nothing) skipped.
Proof.
  revert ar ac rest. induction draws as [|[r c] draws IH]; intros ar ac rest H; [done|].
  simpl in H. apply bind_Ok in H as (t & Ht & H). unfold tile_eqb in H.
  case_bool_decide as HtN.
  - injection H as <- <- <-. by exists [].
  - destruct (IH _ _ _ H) as (skipped & -> & Hall). exists ((r, c) :: skipped).
    split; [done|]. apply Forall_cons. split; [|done]. simpl. congruence.
Qed.

Lemma generate_apple_loop_none rows cols b draws :
  wf_board rows cols b → Forall (in_grid rows cols) draws →
  Forall (λ p, board_get b p.1 p.2 ≠ Ok Nothing) draws →
  generate_apple_loop b draws = NoDraw.
Proof.
  intros Hwf Hon Hno. induction draws as [|[r c] draws IH]; [done|].
  apply Forall_cons in Hon as [Hp Hon]. apply Forall_cons in Hno as [Hn Hno].
  simpl. destruct (board_get_total _ _ b (r, c) Hwf Hp) as [t Ht]. simpl in Ht, Hn.
  rewrite Ht. simpl. unfold tile_eqb. rewrite bool_decide_eq_false_2 by congruence.
  by apply IH.
Qed.

(** X1.  [generate_apple] takes the first draw that falls on an ['N'] tile:
    the draws before it, none of them on ['N'], are used up, the draws after
    it are left; that tile becomes ['A'], every other tile of the board is as
    before, and the apple position is the only other field that changes. *)
Theorem generate_apple_takes_first_empty (s s' : SnakeBoard) (draws rest : list (Z * Z)) :
  wf_board (_row s) (_col s) (_board s) → Forall (on_board s) draws →
  generate_apple s draws = Ok (s', rest) →
  ∃ skipped,
    draws = skipped ++ get_apple s' :: rest
    ∧ Forall (λ p, ¬ tagged s p Nothing) skipped
    ∧ tagged s (get_apple s') Nothing
    ∧ tagged s' (get_apple s') Apple
    ∧ (∀ q t, on_board s q → q ≠ get_apple s' → tagged s' q t ↔ tagged s q t)
    ∧ s' = set_apple (set_board s (_board s')) (_apple_row s') (_apple_col s').
Proof.
  intros Hwf Hon H. pose proof H as H0. unfold generate_apple in H0.
  apply bind_Ok in H0 as ([[ar ac] rest'] & Hloop & H0).
  apply bind_Ok in H0 as (b' & Hset & [= <- <-]).
  destruct (generate_apple_loop_first _ _ _ _ _ Hloop) as (skipped & Hdraws & Hskipped).
  destruct (generate_apple_sound s draws _ _ Hwf Hon H)
    as (b'' & a & Heq & Ha & HaN & _ & _ & Hget).
  assert (a = (ar, ac)) as ->.
  { destruct a. simpl in Heq. by injection Heq as _ -> ->. }
  assert (b'' = b') as -> by (simpl in Heq; by injection Heq).
  exists skipped. unfold get_apple. simpl. split_and!; try done.
  - unfold tagged. simpl. pose proof (Hget _ Ha) as Hg. by rewrite decide_True in Hg.
  - intros q t Hq Hne. unfold tagged. simpl. by rewrite (Hget q Hq), decide_False.
Qed.

Ltac concrete_cell := split; vm_compute; split; (discriminate || reflexivity).

Ltac concrete_cells :=
  repeat (apply Forall_cons_2; [concrete_cell|]); apply Forall_nil_2.

Lemma game0_wf_board : wf_board (_row game0) (_col game0) (_board game0).
Proof. split; [reflexivity|]. by repeat constructor. Qed.

Lemma generate_apple_takes_first_empty_witness :
  ∃ skipped,
    [(0, 0); (0, 3); (2, 2); (1, 1)] = skipped ++ get_apple game0_again :: [(1, 1)]
    ∧ Forall (λ p, ¬ tagged game0 p Nothing) skipped
    ∧ tagged game0 (get_apple game0_again) Nothing
    ∧ tagged game0_again (get_apple game0_again) Apple
    ∧ (∀ q t, on_board game0 q → q ≠ get_apple game0_again →
              tagged game0_again q t ↔ tagged game0 q t)
    ∧ game0_again
      = set_apple (set_board game0 (_board game0_again))
          (_apple_row game0_again) (_apple_col game0_again).
Proof.
  refine (generate_apple_takes_first_empty game0 game0_again
            [(0, 0); (0, 3); (2, 2); (1, 1)] [(1, 1)] game0_wf_board _ eq_refl).
  concrete_cells.
Defined.

(** X2.  On draws that lie on the board, [generate_apple] returns exactly when
    one of them falls on an ['N'] tile; when none does, all the draws are used
    up and the loop asks for more.  On a board without any ['N'] tile it
    therefore never returns, whatever is drawn. *)
Theorem generate_apple_returns_iff (s : SnakeBoard) (draws : list (Z * Z)) :
  wf_board (_row s) (_col s) (_board s) → Forall (on_board s) draws →
  ((∃ s' rest, generate_apple s draws = Ok (s', rest))
   ↔ Exists (λ p, tagged s p Nothing) draws)
  ∧ (Forall (λ p, ¬ tagged s p Nothing) draws → generate_apple s draws = NoDraw)
  ∧ ((∀ p, on_board s p → ¬ tagged s p Nothing) → generate_apple s draws = NoDraw).
Proof.
  intros Hwf Hon.
  assert (Forall (λ p, ¬ tagged s p Nothing) draws → generate_apple s draws = NoDraw)
    as Hnone.
  { intros Hno. unfold generate_apple.
    by rewrite (generate_apple_loop_none _ _ _ draws Hwf Hon Hno). }
  split_and!.
  - split.
    + intros (s' & rest & H).
      destruct (generate_apple_sound s draws s' rest Hwf Hon H) as (_ & a & _ & _ & HaN & Hin & _).
      apply Exists_exists. eauto.
    + by apply generate_apple_total.
  - done.
  - intros Hfull. apply Hnone. apply Forall_forall. intros p Hp. apply Hfull.
    by eapply Forall_forall in Hon.
Qed.

Lemma generate_apple_returns_iff_witness :
  ((∃ s' rest, generate_apple game_coiled_full [(0, 0); (1, 1)] = Ok (s', rest))
   ↔ Exists (λ p, tagged game_coiled_full p Nothing) [(0, 0); (1, 1)])
  ∧ (Forall (λ p, ¬ tagged game_coiled_full p Nothing) [(0, 0); (1, 1)] →
     generate_apple game_coiled_full [(0, 0); (1, 1)] = NoDraw)
  ∧ ((∀ p, on_board game_coiled_full p → ¬ tagged game_coiled_full p Nothing) →
     generate_apple game_coiled_full [(0, 0); (1, 1)] = NoDraw).
Proof.
  refine (generate_apple_returns_iff game_coiled_full [(0, 0); (1, 1)] _ _).
  - split; [reflexivity|]. by repeat constructor.
  - concrete_cells.
Defined.

(** A board of 2 by 2 that the snake fills: no draw is ever accepted. *)
Example generate_apple_on_a_full_board :
  generate_apple game_coiled_full [(0, 0); (0, 1); (1, 0); (1, 1); (0, 0)] = NoDraw.
Proof. reflexivity. Qed.

(** ** Keys: the first key, and one turn for each tick *)

Lemma quarter_turn_spec k0 k :
  quarter_turn (KEY_DICT k0) k = true
  ↔ ¬ (KEY_DICT k = KEY_DICT k0 ∨ KEY_DICT k = opposite (KEY_DICT k0)).
Proof.
  destruct k0, k; vm_compute; split; try done; try (intros H; exfalso; apply H; auto; fail);
    intros _ [?|?]; done.
Qed.

Lemma update_direction_first_key s k :
  _snake_direction s = (0, 0) → _move_lock s = false →
  update_direction s (KEY_DICT k) = set_snake_direction s (KEY_DICT k).
Proof.
  intros Hd Hl. unfold update_direction. rewrite Hl, Hd. by destruct k.
Qed.

Lemma handle_events_turn s k0 events :
  _snake_direction s = KEY_DICT k0 → _move_lock s = false →
  handle_events s events =
    match find (quarter_turn (KEY_DICT k0)) events with
    | Some k => set_move_lock (set_snake_direction s (KEY_DICT k)) true
    | None => s
    end.
Proof.
  intros Hd Hl. induction events as [|k events IH]; [done|].
  unfold handle_events in *. simpl. rewrite (update_direction_keys s k0 k Hl Hd).
  destruct (quarter_turn (KEY_DICT k0) k) eqn:Hq.
  - apply quarter_turn_spec in Hq. rewrite decide_False by done.
    by apply handle_events_locked.
  - rewrite decide_True; [done|].
    destruct (decide (KEY_DICT k = KEY_DICT k0 ∨ KEY_DICT k = opposite (KEY_DICT k0)));
      [done|]. apply quarter_turn_spec in n. congruence.
Qed.

(** X3.  One pass of [handle_events] turns the snake at most once, and never
    back: with the lock set it changes nothing; with the lock clear and the
    direction that of a key, the first key of the queue that asks for a
    quarter turn is taken, direction and lock are set, and all the other keys
    are without effect.  The direction after the pass is never the reverse of
    the direction before it. *)
Theorem handle_events_one_turn (s : SnakeBoard) (k0 : key) (events : list key) :
  _snake_direction s = KEY_DICT k0 →
  handle_events s events =
    (if _move_lock s then s
     else match find (quarter_turn (KEY_DICT k0)) events with
          | Some k => set_move_lock (set_snake_direction s (KEY_DICT k)) true
          | None => s
          end)
  ∧ _snake_direction (handle_events s events) ≠ opposite (KEY_DICT k0).
Proof.
  intros Hd.
  assert (KEY_DICT k0 ≠ opposite (KEY_DICT k0)) as Hk0 by (by destruct k0).
  destruct (_move_lock s) eqn:Hl.
  { rewrite handle_events_locked by done. split; [done|congruence]. }
  rewrite (handle_events_turn s k0 events Hd Hl). split; [done|].
  destruct (find _ events) as [k|] eqn:Hfind; [|congruence].
  apply find_some in Hfind as [_ Hq]. apply quarter_turn_spec in Hq. simpl. tauto.
Qed.

Lemma handle_events_one_turn_witness :
  handle_events game3 [K_RIGHT; K_LEFT; K_DOWN; K_UP; K_LEFT] =
    (if _move_lock game3 then game3
     else match find (quarter_turn (KEY_DICT K_RIGHT))
                  [K_RIGHT; K_LEFT; K_DOWN; K_UP; K_LEFT] with
          | Some k => set_move_lock (set_snake_direction game3 (KEY_DICT k)) true
          | None => game3
          end)
  ∧ _snake_direction (handle_events game3 [K_RIGHT; K_LEFT; K_DOWN; K_UP; K_LEFT])
    ≠ opposite (KEY_DICT K_RIGHT).
Proof.
  exact (handle_events_one_turn game3 K_RIGHT [K_RIGHT; K_LEFT; K_DOWN; K_UP; K_LEFT]
           eq_refl).
Defined.

(** X4.  Before any key was taken (direction [(0, 0)], lock clear) the first
    key of a queue is adopted whatever it is, and the lock stays clear; so a
    later key of the same queue that asks for a quarter turn from it is
    taken as well, and sets the lock. *)
Theorem handle_events_first_keys (s : SnakeBoard) (k1 : key) (events : list key) :
  _snake_direction s = (0, 0) → _move_lock s = false →
  update_direction s (KEY_DICT k1) = set_snake_direction s (KEY_DICT k1)
  ∧ handle_events s (k1 :: events) =
      match find (quarter_turn (KEY_DICT k1)) events with
      | Some k => set_move_lock (set_snake_direction s (KEY_DICT k)) true
      | None => set_snake_direction s (KEY_DICT k1)
      end.
Proof.
  intros Hd Hl. pose proof (update_direction_first_key s k1 Hd Hl) as H1.
  split; [done|]. unfold handle_events. simpl. rewrite H1.
  fold (handle_events (set_snake_direction s (KEY_DICT k1)) events).
  rewrite (handle_events_turn (set_snake_direction s (KEY_DICT k1)) k1 events eq_refl Hl).
  by destruct (find _ events).
Qed.

Lemma handle_events_first_keys_witness :
  update_direction game0 (KEY_DICT K_RIGHT) = set_snake_direction game0 (KEY_DICT K_RIGHT)
  ∧ handle_events game0 [K_RIGHT; K_LEFT; K_UP] =
      match find (quarter_turn (KEY_DICT K_RIGHT)) [K_LEFT; K_UP] with
      | Some k => set_move_lock (set_snake_direction game0 (KEY_DICT k)) true
      | None => set_snake_direction game0 (KEY_DICT K_RIGHT)
      end.
Proof. exact (handle_events_first_keys game0 K_RIGHT [K_LEFT; K_UP] eq_refl eq_refl). Defined.

(** ** The direction of a game *)

Lemma reachable_direction stalled s :
  reachable stalled s →
  (_snake_direction s = (0, 0) ∧ _move_lock s = false)
  ∨ ∃ k, _snake_direction s = KEY_DICT k.
Proof.
  induction 1 as [row col draws s rest Hon Hinit
                 |stalled s k Hreach IH
                 |stalled s draws r s' rest Hreach IH Hon Hnext Hend'].
  - left. by destruct (init_sound row col draws s rest Hon Hinit)
      as (_ & _ & _ & _ & _ & _ & _ & ? & ? & _).
  - right. destruct IH as [[Hd Hl]|[k0 Hd]].
    + rewrite update_direction_first_key by done. by exists k.
    + destruct (_move_lock s) eqn:Hl.
      * rewrite update_direction_locked by done. by exists k0.
      * rewrite (update_direction_keys s k0 k Hl Hd). case_decide; [by exists k0|by exists k].
  - destruct (next_fields s draws r s' rest Hnext) as (Hl & Hd & _).
    rewrite Hl, Hd. destruct IH as [[? _]|?]; auto.
Qed.

(** X5.  In every state of a game the direction is [(0, 0)], with the lock
    clear and the length 1, or the vector of one of the four keys; and
    after a key press it is the vector of a key. *)
Theorem direction_is_a_key (stalled : bool) (s : SnakeBoard) :
  reachable stalled s →
  ((get_direction s = (0, 0) ∧ _move_lock s = false ∧ get_length s = 1)
   ∨ ∃ k, get_direction s = KEY_DICT k)
  ∧ ∀ k, ∃ k', get_direction (update_direction s (KEY_DICT k)) = KEY_DICT k'.
Proof.
  intros Hreach. split.
  - destruct (reachable_direction stalled s Hreach) as [[Hd Hl]|?]; [left|by right].
    destruct (reachable_coherent stalled s Hreach) as (_ & _ & Hpre & _).
    split_and!; auto.
  - intros k.
    destruct (reachable_direction stalled _ (reach_direction stalled s k Hreach))
      as [[Hd _]|?]; [|done].
    destruct (update_direction_fields s k) as (d & l & Heq & Hzero).
    rewrite Heq in Hd. simpl in Hd. pose proof (Hzero Hd) as Hd0.
    destruct (reachable_direction stalled s Hreach) as [[_ Hl]|[k0 Hk0]].
    + rewrite update_direction_first_key by done. by exists k.
    + rewrite Hk0 in Hd0. by destruct k0.
Qed.

Lemma direction_is_a_key_witness :
  ((get_direction game3 = (0, 0) ∧ _move_lock game3 = false ∧ get_length game3 = 1)
   ∨ ∃ k, get_direction game3 = KEY_DICT k)
  ∧ ∀ k, ∃ k', get_direction (update_direction game3 (KEY_DICT k)) = KEY_DICT k'.
Proof. exact (direction_is_a_key false game3 game3_reachable). Defined.

(** ** What one tick does to the snake *)

Lemma Coherent_locations_single s :
  Coherent s → _snake_length s = 1 → locations s = [head s].
Proof.
  intros Hc HL. destruct (locations_drop s Hc) as [_ Hlen].
  pose proof (head_in_locations s Hc) as Hlast.
  destruct (locations s) as [|x [|y l]]; simpl in *; [lia| |lia]. congruence.
Qed.

(** A tick of a game whose target is on the board and does not hold ['S0']. *)
Lemma next_advance stalled s draws r s' rest :
  reachable stalled s → Forall (on_board s) draws →
  next s draws = Ok (r, s', rest) →
  on_board s (target s) → ¬ tagged s (target s) S0 →
  r = PyNone ∧ _end s' = false
  ∧ head s' = target s
  ∧ _snake s' = locations s ++ [target s]
  ∧ _snake_length s' =
      (if bool_decide (tagged s (target s) Apple)
       then _snake_length s + 1 else _snake_length s)
  ∧ _row s' = _row s ∧ _col s' = _col s
  ∧ _snake_direction s' = _snake_direction s
  ∧ Coherent s'.
Proof.
  intros Hreach Hon Hnext Hon_t HS0.
  destruct (reachable_coherent stalled s Hreach) as (Hend & Hc & Hpre & Hhead).
  destruct (decide (_snake_direction s = (0, 0))) as [Hdir|Hdir].
  - destruct (next_still s draws Hc Hdir (Hpre Hdir))
      as (s1 & Hrun & Hst & Hpath & Hlen & Hh & Hd & He & _ & Hrow & Hcol & _).
    rewrite Hrun in Hnext. injection Hnext as <- <- <-.
    rewrite (target_still s Hdir), (Coherent_locations_single s Hc (Hpre Hdir)).
    pose proof (Hpre Hdir) as HL1.
    rewrite bool_decide_eq_false_2.
    + split_and!; try done; try congruence. apply Hst.
    + unfold tagged in *. destruct Hhead; congruence.
  - destruct (next_moving s draws Hc Hdir Hon_t HS0)
      as (t & s1 & Ht & _ & Hrun & Hinv1 & Hpath1 & Hlen1 & Hhead1 & Hdir1 & Hend1
          & _ & Hrow1 & Hcol1 & _).
    assert (tile_eqb t Apple = bool_decide (tagged s (target s) Apple)) as Hate.
    { unfold tile_eqb. apply bool_decide_ext. unfold tagged in *. split; congruence. }
    rewrite Hate in *. rewrite Hrun in Hnext.
    destruct (bool_decide (tagged s (target s) Apple)).
    + apply bind_Ok in Hnext as ([s2 rest2] & Hgen & [= <- <- <-]).
      assert (Forall (on_board s1) draws) as Hon1.
      { unfold on_board. by rewrite Hrow1, Hcol1. }
      destruct (Coherent_generate_apple s1 draws s2 rest2 (inv_coherent _ Hinv1) Hon1 Hgen)
        as (Hc2 & Hp2 & Hl2 & Hh2 & Hd2 & He2 & _ & Hr2 & Hcl2 & _).
      split_and!; try done; congruence.
    + injection Hnext as <- <- <-. split_and!; try done; try congruence.
      apply Hinv1.
Qed.

(** X6.  In a game a tick ends the game exactly when the cell that the head
    would move to is off the board or holds ['S0']; it returns [True] in that
    case and in no other, and only then is the flag [_end] set. *)
Theorem tick_ends_iff_collision (stalled : bool) (s s' : SnakeBoard)
    (draws rest : list (Z * Z)) (r : py_value) :
  reachable stalled s → Forall (on_board s) draws →
  next s draws = Ok (r, s', rest) →
  (r = PyBool true ↔ ¬ on_board s (target s) ∨ tagged s (target s) S0)
  ∧ (get_end s' = true ↔ ¬ on_board s (target s) ∨ tagged s (target s) S0)
  ∧ (r = PyNone ↔ on_board s (target s) ∧ ¬ tagged s (target s) S0).
Proof.
  intros Hreach Hon Hnext.
  destruct (decide (on_board s (target s))) as [Hon_t|Hoff]; last first.
  { rewrite next_collision in Hnext by auto. injection Hnext as <- <- <-.
    split_and!; split; try done; auto. by intros [? _]. }
  destruct (decide (tagged s (target s) S0)) as [HS0|HS0].
  { rewrite next_collision in Hnext by auto. injection Hnext as <- <- <-.
    split_and!; split; try done; auto. by intros [_ ?]. }
  destruct (next_advance stalled s draws r s' rest Hreach Hon Hnext Hon_t HS0)
    as (-> & Hend & _).
  unfold get_end. rewrite Hend. split_and!; split; try done; intros [?|?]; done.
Qed.

Lemma tick_ends_iff_collision_witness :
  (PyBool true = PyBool true
   ↔ ¬ on_board game_wall (target game_wall) ∨ tagged game_wall (target game_wall) S0)
  ∧ (get_end (set_end (set_move_lock game_wall false) true) = true
     ↔ ¬ on_board game_wall (target game_wall) ∨ tagged game_wall (target game_wall) S0)
  ∧ (PyBool true = PyNone
     ↔ on_board game_wall (target game_wall) ∧ ¬ tagged game_wall (target game_wall) S0).
Proof.
  exact (tick_ends_iff_collision false game_wall _ [] [] (PyBool true)
           game_wall_reachable (Forall_nil_2 _) eq_refl).
Defined.

(** X7.  A tick of a game that does not end it moves the snake by one cell:
    the head is at the target, the cells of the snake are those it covered
    before, without the oldest unless the target held ['A'], followed by the
    target; the length grows by one if the target held ['A'] and is
    unchanged otherwise; and the path kept is the cells covered before
    followed by the target. *)
Theorem snake_advances (stalled : bool) (s s' : SnakeBoard) (draws rest : list (Z * Z)) :
  reachable stalled s → Forall (on_board s) draws →
  next s draws = Ok (PyNone, s', rest) →
  let ate := bool_decide (tagged s (target s) Apple) in
  head s' = target s
  ∧ locations s' = (if ate then locations s else tail (locations s)) ++ [target s]
  ∧ get_length s' = (if ate then get_length s + 1 else get_length s)
  ∧ get_path s' = locations s ++ [target s]
  ∧ get_direction s' = get_direction s.
Proof.
  intros Hreach Hon Hnext ate.
  assert (on_board s (target s) ∧ ¬ tagged s (target s) S0) as [Hon_t HS0].
  { destruct (decide (on_board s (target s))) as [?|Hoff]; last first.
    { rewrite next_collision in Hnext by auto. done. }
    destruct (decide (tagged s (target s) S0)) as [?|?]; [|done].
    rewrite next_collision in Hnext by auto. done. }
  destruct (next_advance stalled s draws _ s' rest Hreach Hon Hnext Hon_t HS0)
    as (_ & _ & Hhead & Hpath & Hlen & _ & _ & Hdir & Hc').
  destruct (reachable_coherent stalled s Hreach) as (_ & Hc & _).
  destruct (locations_drop s Hc) as [_ Hloclen].
  pose proof (coh_length s Hc) as HL.
  split_and!; try done.
  destruct (locations_drop s' Hc') as [-> _]. rewrite Hpath, Hlen, length_app. simpl.
  fold ate. destruct ate.
  - replace (length (locations s) + 1 - Z.to_nat (_snake_length s + 1))%nat with 0%nat
      by lia. done.
  - replace (length (locations s) + 1 - Z.to_nat (_snake_length s))%nat with 1%nat by lia.
    destruct (locations s) as [|x l]; simpl in *; [lia|done].
Qed.

Lemma snake_advances_witness :
  let ate := bool_decide (tagged game2 (target game2) Apple) in
  head game3 = target game2
  ∧ locations game3 = (if ate then locations game2 else tail (locations game2))
                      ++ [target game2]
  ∧ get_length game3 = (if ate then get_length game2 + 1 else get_length game2)
  ∧ get_path game3 = locations game2 ++ [target game2]
  ∧ get_direction game3 = get_direction game2.
Proof.
  exact (snake_advances false game2 game3 [] [] game2_reachable (Forall_nil_2 _) eq_refl).
Defined.

(** ** The apple of a game *)

(** The tiles that [move_snake] leaves: ['N'] on the entries that fell out of
    the snake, and the tile of before on every cell that was neither covered
    by the snake nor is the new head. *)
Lemma move_snake_tiles s (n : Z * Z) ate s' :
  Coherent s → on_board s n → move_snake s n.1 n.2 = Ok (ate, s') →
  (∀ p, p ∈ old_locations s' → tagged s' p Nothing)
  ∧ (∀ p, on_board s p → p ∉ locations s → p ≠ n →
          board_get (_board s') p.1 p.2 = board_get (_board s) p.1 p.2).
Proof.
  intros Hc Hn Hmove.
  destruct (move_snake_spec s n Hc Hn) as (t & b' & _ & Hrun & _ & Hget).
  rewrite Hrun in Hmove. injection Hmove as <- <-.
  destruct (locations_drop s Hc) as [Hloc Hloclen].
  pose proof (coh_length s Hc) as HL. pose proof (coh_on_board s Hc) as Hon.
  set (len := if tile_eqb t Apple then _snake_length s + 1 else _snake_length s) in *.
  set (path := locations s ++ [n]) in *.
  assert (Z.of_nat (length path) = _snake_length s + 1) as Hpathlen.
  { unfold path. rewrite length_app. simpl. lia. }
  assert (_snake_length s ≤ len ≤ _snake_length s + 1) as Hlen.
  { unfold len. destruct (tile_eqb t Apple); lia. }
  assert (Forall (on_board s) path) as Hpathon.
  { apply Forall_app. split; [|by apply Forall_singleton]. rewrite Hloc. by apply Forall_drop. }
  split.
  - intros p Hp. unfold old_locations, py_slice_to, get_path, get_length in Hp.
    simpl in Hp. fold path in Hp.
    destruct (Z.ltb_spec (Z.of_nat (length path) - len) 0); [lia|].
    assert (on_board s p) as Hpon.
    { apply subseteq_take in Hp. by eapply Forall_forall in Hpathon. }
    change (board_get b' p.1 p.2 = Ok Nothing). rewrite (Hget p Hpon).
    by rewrite decide_True.
  - intros p Hp Hnloc Hne.
    change (board_get b' p.1 p.2 = board_get (_board s) p.1 p.2). rewrite (Hget p Hp).
    assert (p ∉ path) as Hnpath.
    { unfold path. rewrite elem_of_app, list_elem_of_singleton. tauto. }
    rewrite decide_False by (intros ?%subseteq_take; done).
    rewrite decide_False by (intros ?%subseteq_take%subseteq_drop; done).
    rewrite decide_False by done.
    rewrite decide_False; [done|]. intros ->. apply Hnloc.
    eapply last_Some_elem_of, head_in_locations, Hc.
Qed.

Lemma OneApple_fields s s' :
  _row s' = _row s → _col s' = _col s → _board s' = _board s →
  _snake s' = _snake s → get_apple s' = get_apple s →
  OneApple s → OneApple s'.
Proof.
  intros Hr Hc Hb Hp Ha [H1 H2 H3].
  split; unfold on_board, tagged, get_path in *; rewrite ?Hr, ?Hc, ?Hb, ?Hp, ?Ha; done.
Qed.

(** In a coherent state every entry of the path holds ['S1'], ['S0'] or, for
    the entries before the snake, whatever [old_locations] holds. *)
Lemma path_entry_cases s p :
  Coherent s → p ∈ _snake s →
  p ∈ old_locations s ∨ p = head s ∨ tagged s p S0.
Proof.
  intros Hc Hp. destruct (locations_drop s Hc) as [Hloc _].
  pose proof (old_locations_take s Hc) as Hold.
  assert (on_board s p) as Hon.
  { pose proof (coh_on_board s Hc) as Hall. by eapply Forall_forall in Hall. }
  rewrite <- (take_drop (length (_snake s) - Z.to_nat (_snake_length s)) (_snake s)) in Hp.
  rewrite <- Hloc, <- Hold in Hp. apply elem_of_app in Hp as [?|Hin]; [by left|].
  destruct (decide (p = head s)); [by auto|]. right. right. by apply (coh_S0 s Hc).
Qed.

Lemma OneApple_next stalled s draws r s' rest :
  reachable stalled s → OneApple s → Forall (on_board s) draws →
  next s draws = Ok (r, s', rest) → OneApple s'.
Proof.
  intros Hreach Happle Hon Hnext.
  destruct (reachable_coherent stalled s Hreach) as (Hend & Hc & Hpre & Hhead).
  pose proof Happle as [Ha_on Ha_tile Ha_path].
  pose proof (head_on_board s Hc) as Hh_on.
  assert (head s ∈ _snake s) as Hh_in.
  { eapply last_Some_elem_of, (coh_head s Hc). }
  assert (get_apple s ≠ head s) as Ha_head by (intros E; by rewrite E in Ha_path).
  destruct (decide (on_board s (target s))) as [Hon_t|Hoff]; last first.
  { rewrite next_collision in Hnext by auto. injection Hnext as <- <- <-.
    by apply (OneApple_fields s). }
  destruct (decide (tagged s (target s) S0)) as [HS0|HS0].
  { rewrite next_collision in Hnext by auto. injection Hnext as <- <- <-.
    by apply (OneApple_fields s). }
  destruct (decide (_snake_direction s = (0, 0))) as [Hdir|Hdir].
  - (* a tick without direction: the head tile alone changes *)
    destruct (move_snake_still (set_move_lock s false)) as (b' & Hrun & Hst & Hframe);
      [by apply Coherent_set_move_lock|exact (Hpre Hdir)|].
    destruct (board_get_total _ _ (_board s) (head s) (coh_board s Hc) Hh_on) as [t Ht].
    assert (t ≠ S0) as HtS0.
    { intros ->. apply (coh_S0 s Hc _ Hh_on) in Ht. by destruct Ht. }
    rewrite (next_running s draws t) in Hnext;
      [|by rewrite (target_still s Hdir)..|done].
    rewrite (target_still s Hdir) in Hnext. simpl in Hrun, Hnext. rewrite Hrun in Hnext.
    injection Hnext as <- <- <-. split.
    + exact Ha_on.
    + intros p Hp. unfold tagged. simpl. destruct (decide (p = head s)) as [->|Hne].
      * pose proof (stl_head _ Hst) as HN. unfold tagged in HN. simpl in HN.
        split; [intros HA; simpl in HA; congruence|].
        intros E. exfalso. apply Ha_head. symmetry. exact E.
      * rewrite (Hframe p Hp Hne). apply (Ha_tile p Hp).
    + unfold get_path, get_apple. simpl. intros Hin.
      apply elem_of_cons in Hin as [E|Hin]; [done|].
      by apply list_elem_of_singleton in Hin.
  - (* a tick with a direction *)
    destruct (next_moving s draws Hc Hdir Hon_t HS0)
      as (t & s1 & Ht & Hmove & Hrun & Hinv1 & Hpath1 & Hlen1 & Hhead1 & _ & _
          & _ & Hrow1 & Hcol1 & Happle1 & _).
    destruct (move_snake_tiles (set_move_lock s false) (target s) _ s1
                (Coherent_set_move_lock s false Hc) Hon_t Hmove) as [Hold1 Hframe1].
    change (locations (set_move_lock s false)) with (locations s) in Hframe1.
    pose proof (inv_coherent s1 Hinv1) as Hc1.
    assert (∀ p, on_board s p ↔ on_board s1 p) as Hon1.
    { intros p. unfold on_board. by rewrite Hrow1, Hcol1. }
    assert (∀ p, p ∈ _snake s1 → ¬ tagged s1 p Apple ∧ (tagged s1 p Nothing → p ∈ old_locations s1))
      as Hpath_tiles.
    { intros p Hp. destruct (path_entry_cases s1 p Hc1 Hp) as [Hin|[->|HS]].
      - split; [|done]. apply Hold1 in Hin. unfold tagged in *. congruence.
      - pose proof (inv_head s1 Hinv1). unfold tagged in *. split; congruence.
      - unfold tagged in *. split; congruence. }
    assert (locations s ⊆ _snake s) as Hsub.
    { destruct (locations_drop s Hc) as [-> _]. apply subseteq_drop. }
    assert (∀ p, on_board s p → p ≠ get_apple s → ¬ tagged s1 p Apple) as Hno_other.
    { intros p Hp Hne HA.
      destruct (decide (p ∈ _snake s1)) as [Hin|Hnin];
        [by destruct (Hpath_tiles p Hin)|].
      rewrite Hpath1, elem_of_app, list_elem_of_singleton in Hnin.
      unfold tagged in HA. rewrite Hframe1 in HA by tauto. by apply Ha_tile in HA. }
    rewrite Hrun in Hnext. unfold tile_eqb in Hnext. case_bool_decide as HtA.
    + (* the apple is eaten, and another one is put *)
      subst t. apply bind_Ok in Hnext as ([s2 rest2] & Hgen & [= <- <- <-]).
      assert (Forall (on_board s1) draws) as Hdraws1.
      { eapply Forall_impl; [exact Hon|]. intros p. apply Hon1. }
      destruct (Coherent_generate_apple s1 draws s2 rest2 Hc1 Hdraws1 Hgen)
        as (_ & Hp2 & _ & _ & _ & _ & _ & Hr2 & Hcl2 & _ & Ha2 & Ha2N & Ha2A & Hframe2).
      assert (get_apple s = target s) as Hat by (symmetry; by apply Ha_tile).
      split.
      * unfold on_board. rewrite Hr2, Hcl2. apply Ha2.
      * intros p Hp. unfold on_board in Hp. rewrite Hr2, Hcl2 in Hp.
        destruct (decide (p = get_apple s2)) as [->|Hne]; [done|].
        rewrite (Hframe2 p Apple Hp Hne). split; [|done]. intros HA. exfalso.
        destruct (decide (p = get_apple s)) as [->|Hne'].
        -- rewrite Hat, <- Hhead1 in HA. pose proof (inv_head s1 Hinv1).
           unfold tagged in *. congruence.
        -- by apply (Hno_other p (proj2 (Hon1 p) Hp) Hne').
      * unfold get_path. rewrite Hp2. intros Hin.
        destruct (Hpath_tiles _ Hin) as [_ Hold]. specialize (Hold Ha2N).
        rewrite (old_locations_take s1 Hc1), Hpath1, Hlen1 in Hold.
        destruct (locations_drop s Hc) as [_ Hloclen].
        rewrite length_app in Hold. simpl in Hold.
        change (tile_eqb Apple Apple) with true in Hold.
        replace (length (locations s) + 1 - Z.to_nat (_snake_length s + 1))%nat
          with 0%nat in Hold by lia.
        by apply elem_of_nil in Hold.
    + (* no apple is eaten: the apple stays where it is *)
      injection Hnext as <- <- <-.
      assert (get_apple s ≠ target s) as Hat.
      { intros E. apply HtA. rewrite <- E in Ht. apply Ha_tile in Ha_on.
        pose proof (proj2 Ha_on eq_refl). unfold tagged in *. congruence. }
      assert (get_apple s ∉ _snake s1) as Hoff1.
      { rewrite Hpath1, elem_of_app, list_elem_of_singleton.
        intros [Hin|?]; [|done]. by apply Ha_path, Hsub. }
      split.
      * rewrite Happle1. by apply Hon1.
      * intros p Hp. rewrite Happle1. apply Hon1 in Hp.
        destruct (decide (p = get_apple s)) as [->|Hne].
        -- split; [done|]. intros _. unfold tagged. rewrite Hframe1; [|done| |done].
           ++ by apply Ha_tile.
           ++ intros Hin. by apply Ha_path, Hsub.
        -- split; [|done]. intros HA. by apply Hno_other in HA.
      * unfold get_path. by rewrite Happle1.
Qed.

Lemma reachable_one_apple stalled s : reachable stalled s → OneApple s.
Proof.
  intros Hreach. induction Hreach as [row col draws s rest Hon Hinit
                 |stalled s k Hreach IH
                 |stalled s draws r s' rest Hreach IH Hon Hnext Hend'].
  - destruct (init_sound row col draws s rest Hon Hinit)
      as (_ & _ & _ & _ & _ & Hpath & _ & _ & _ & _ & _ & _ & Hget).
    destruct (init_cells row col draws s rest Hon Hinit) as (_ & _ & _ & Ha & Hne).
    split; [done| |].
    + intros p Hp. unfold tagged. rewrite (Hget p Hp). repeat case_decide; split; done.
    + unfold get_path. rewrite Hpath. by intros ?%list_elem_of_singleton.
  - destruct (update_direction_fields s k) as (d & l & -> & _).
    by apply (OneApple_fields s).
  - by eapply OneApple_next.
Qed.

(** X8.  In every state of a game there is exactly one apple: the cell that
    [get_apple] returns is on the board, it is the one cell of the board that
    holds ['A'], and it is not an entry of the path; and the entries of the
    path before the snake, which [draw_snake] paints over, hold ['N']. *)
Theorem one_apple (stalled : bool) (s : SnakeBoard) :
  reachable stalled s →
  cells_tagged s Apple = [get_apple s]
  ∧ on_board s (get_apple s)
  ∧ (get_apple s ∉ get_path s)
  ∧ ∀ p, p ∈ old_locations s → tagged s p Nothing.
Proof.
  intros Hreach. destruct (reachable_one_apple stalled s Hreach) as [Ha Htile Hoff].
  destruct (reachable_coherent stalled s Hreach) as (_ & Hc & _).
  split_and!; try done.
  - apply Permutation_singleton_r. apply cells_filter_perm; [apply NoDup_singleton| |].
    + by intros p ->%list_elem_of_singleton.
    + intros p Hp. rewrite list_elem_of_singleton. by apply Htile.
  - intros p Hp. destruct (reachable_invariant stalled s Hreach) as [_ Hinv].
    destruct stalled.
    + destruct Hinv as [_ Hpath HL HN].
      rewrite (old_locations_take s Hc), Hpath, HL in Hp. simpl in Hp.
      by apply list_elem_of_singleton in Hp as ->.
    + pose proof (Inv_old_locations s p Hinv Hp) as Hnot.
      assert (p ∈ _snake s) as Hin.
      { rewrite (old_locations_take s Hc) in Hp. by apply subseteq_take in Hp. }
      assert (on_board s p) as Hon.
      { pose proof (coh_on_board s Hc) as Hall. by eapply Forall_forall in Hall. }
      destruct (board_get_total _ _ (_board s) p (coh_board s Hc) Hon) as [t Ht].
      destruct t.
      * exfalso. apply Hnot. by left.
      * exfalso. apply Hnot. by right.
      * exfalso. apply Hoff. by rewrite <- (proj1 (Htile p Hon) Ht).
      * done.
Qed.

Lemma one_apple_witness :
  cells_tagged game3 Apple = [get_apple game3]
  ∧ on_board game3 (get_apple game3)
  ∧ (get_apple game3 ∉ get_path game3)
  ∧ ∀ p, p ∈ old_locations game3 → tagged game3 p Nothing.
Proof. exact (one_apple false game3 game3_reachable). Defined.

(** ** Eating the apple *)

Lemma corner_draws_in_grid : Forall (in_grid 2 2) corner_draws.
Proof. repeat constructor; simpl; lia. Qed.

Lemma corner0_init : SnakeBoard_init 2 2 corner_draws = Ok (corner0, []).
Proof. reflexivity. Qed.

Lemma corner_cell_in_grid (p : Z * Z) :
  p ∈ [(0, 0); (0, 1); (1, 0); (1, 1)] ↔ in_grid 2 2 p.
Proof.
  destruct p as [r c]. unfold in_grid. simpl. rewrite !elem_of_cons, elem_of_nil.
  split.
  - intros [E|[E|[E|[E|[]]]]]; injection E as -> ->; lia.
  - intros [Hr Hc].
    assert (r = 0 ∨ r = 1) as [-> | ->] by lia;
      assert (c = 0 ∨ c = 1) as [-> | ->] by lia; tauto.
Qed.

Lemma corner_reachable :
  reachable false corner5 ∧ reachable false corner_full.
Proof.
  assert (∀ p, p ∈ [(0, 0); (0, 1); (1, 0); (1, 1)] → in_grid 2 2 p) as Hin
    by (intros p; apply corner_cell_in_grid).
  pose proof (reach_init 2 2 corner_draws corner0 [] corner_draws_in_grid corner0_init)
    as H0.
  pose proof (reach_direction false corner0 K_RIGHT H0) as H1.
  assert (reachable false corner2) as H2.
  { refine (reach_next false corner1 [(1, 0)] PyNone corner2 [] H1 _ eq_refl eq_refl).
    apply Forall_singleton, Hin. repeat constructor. }
  pose proof (reach_direction false corner2 K_DOWN H2) as H3.
  assert (reachable false corner4) as H4.
  { exact (reach_next false corner3 [] PyNone corner4 [] H3 (Forall_nil_2 _)
             eq_refl eq_refl). }
  pose proof (reach_direction false corner4 K_LEFT H4) as H5.
  split; [exact H5|].
  assert (reachable false corner6) as H6.
  { refine (reach_next false corner5 [(0, 0)] PyNone corner6 [] H5 _ eq_refl eq_refl).
    apply Forall_singleton, Hin. repeat constructor. }
  exact (reach_direction false corner6 K_UP H6).
Qed.

(** The boards of the two states: in [corner5] the one ['N'] is at the
    entry [(0, 0)] of the path; in [corner_full] there is none. *)
Example corner_boards :
  _board corner5 = [[Nothing; S0]; [Apple; S1]]
  ∧ get_path corner5 = [(0, 0); (0, 1); (1, 1)]
  ∧ locations corner5 = [(0, 1); (1, 1)]
  ∧ target corner5 = (1, 0)
  ∧ _board corner_full = [[Apple; S0]; [S1; S0]]
  ∧ locations corner_full = [(0, 1); (1, 1); (1, 0)]
  ∧ target corner_full = (0, 0).
Proof. by vm_compute. Qed.

(** The tiles that [generate_apple] finds when a tick has eaten: the cells
    that the snake covered and the cell of the eaten apple hold the snake,
    and every other cell of the board holds ['N']. *)
Lemma eating_tiles stalled s s1 p :
  reachable stalled s → on_board s (target s) → tagged s (target s) Apple →
  move_snake (set_move_lock s false) (target s).1 (target s).2 = Ok (true, s1) →
  on_board s p →
  tagged s1 p Nothing ↔ (p ∉ locations s) ∧ p ≠ target s.
Proof.
  intros Hreach Hon_t HA Hmove Hp.
  destruct (reachable_coherent stalled s Hreach) as (_ & Hc & _ & Hhead).
  pose proof (reachable_one_apple stalled s Hreach) as [_ Happle _].
  assert (target s ≠ head s) as Hne.
  { intros E. rewrite E in HA. unfold tagged in *. destruct Hhead; congruence. }
  pose proof (Coherent_set_move_lock s false Hc) as Hc0.
  destruct (move_snake_spec (set_move_lock s false) (target s) Hc0 Hon_t)
    as (t & b' & Ht & Hrun & _ & Hget).
  change (head (set_move_lock s false)) with (head s) in *.
  change (locations (set_move_lock s false)) with (locations s) in *.
  change (_snake_length (set_move_lock s false)) with (_snake_length s) in *.
  change (_board (set_move_lock s false)) with (_board s) in *.
  destruct (decide (target s = head s)) as [|_]; [done|].
  change (tagged s (target s) t) in Ht.
  assert (t = Apple) as -> by (unfold tagged in *; congruence).
  change (tile_eqb Apple Apple) with true in *. cbv zeta in Hrun, Hget.
  rewrite Hmove in Hrun. injection Hrun as ->.
  destruct (locations_drop s Hc) as [_ Hloclen].
  specialize (Hget p Hp). rewrite length_app in Hget. simpl length in Hget.
  replace (Z.to_nat (Z.of_nat (length (locations s) + 1) - (_snake_length s + 1)))
    with 0%nat in Hget by lia.
  replace (Z.to_nat (_snake_length s + 1 - 1)) with (length (locations s)) in Hget by lia.
  rewrite take_0, drop_0, take_app_length in Hget.
  unfold tagged. simpl _board. rewrite Hget.
  destruct (decide (p ∈ [])) as [Hin|_]; [by apply elem_of_nil in Hin|].
  destruct (decide (p ∈ locations s)) as [Hin|Hnin]; [split; [done|tauto]|].
  destruct (decide (p = target s)) as [->|Hpt]; [split; [done|tauto]|].
  assert (p ≠ head s) as Hph.
  { intros ->. apply Hnin. apply list_elem_of_lookup.
    pose proof (head_in_locations s Hc) as Hl. rewrite last_lookup in Hl. eauto. }
  destruct (decide (p = head s)); [done|].
  split; [done|]. intros _.
  destruct (board_get_total _ _ (_board s) p (coh_board s Hc) Hp) as [t Ht'].
  rewrite Ht'. f_equal. destruct t; [exfalso|exfalso|exfalso|done].
  - by apply Hph, (coh_S1 s Hc p Hp).
  - by apply (coh_S0 s Hc p Hp) in Ht' as [? _].
  - apply Hpt. apply (Happle p Hp) in Ht'. apply (Happle _ Hon_t) in HA. congruence.
Qed.

(** A tick that eats is the move of the snake followed by [generate_apple]
    on the state [s1] that the move leaves. *)
Lemma next_eating stalled s draws :
  reachable stalled s → on_board s (target s) → tagged s (target s) Apple →
  ∃ s1,
    move_snake (set_move_lock s false) (target s).1 (target s).2 = Ok (true, s1)
    ∧ next s draws = ('(s2, draws') ←? generate_apple s1 draws; Ok (PyNone, s2, draws'))
    ∧ Inv s1
    ∧ _snake_length s1 = _snake_length s + 1
    ∧ head s1 = target s
    ∧ _end s1 = false ∧ _row s1 = _row s ∧ _col s1 = _col s.
Proof.
  intros Hreach Hon_t HA.
  destruct (reachable_coherent stalled s Hreach) as (Hend & Hc & _ & Hhead).
  assert (target s ≠ head s) as Hmove.
  { intros E. rewrite E in HA. unfold tagged in *. destruct Hhead; congruence. }
  assert (_snake_direction s ≠ (0, 0)) as Hdir.
  { intros E. by apply Hmove, target_still. }
  assert (¬ tagged s (target s) S0) as HS0.
  { unfold tagged in *. congruence. }
  destruct (next_moving s draws Hc Hdir Hon_t HS0)
    as (t & s1 & Ht & Hrun1 & Hrun & Hinv1 & _ & Hlen1 & Hhead1 & _ & Hend1
        & _ & Hrow1 & Hcol1 & _).
  assert (t = Apple) as -> by (unfold tagged in *; congruence).
  change (tile_eqb Apple Apple) with true in *.
  exists s1. split_and!; try done. congruence.
Qed.

(** When every draw falls on the snake or on the eaten apple, the tick uses
    the draws up and asks for more. *)
Lemma next_eating_no_draw stalled s draws :
  reachable stalled s → on_board s (target s) → tagged s (target s) Apple →
  Forall (on_board s) draws →
  Forall (λ p, p ∈ locations s ∨ p = target s) draws →
  next s draws = NoDraw.
Proof.
  intros Hreach Hon_t HA Hon Hall.
  destruct (next_eating stalled s draws Hreach Hon_t HA)
    as (s1 & Hmove & -> & Hinv1 & _ & _ & _ & Hrow1 & Hcol1).
  unfold generate_apple.
  rewrite (generate_apple_loop_none (_row s1) (_col s1) (_board s1) draws); [done|..].
  - exact (coh_board s1 (inv_coherent s1 Hinv1)).
  - by rewrite Hrow1, Hcol1.
  - apply Forall_forall. intros p Hp HN.
    pose proof (proj1 (Forall_forall _ _) Hon p Hp) as Hpon.
    pose proof (proj1 (Forall_forall _ _) Hall p Hp) as Hps.
    apply (eating_tiles stalled s s1 p Hreach Hon_t HA Hmove Hpon) in HN.
    cbv beta in Hps. tauto.
Qed.

(** C8 (amended).  In a running game, when the cell the head moves onto
    holds ['A'], the snake moves and grows, and [generate_apple] is called
    on a board whose ['N'] cells are exactly the cells that are neither the
    snake's nor the cell of the eaten apple.  When every draw falls on the
    snake or on the eaten apple, the tick does not return.  As soon as a draw
    falls elsewhere, it returns, and then: the length has grown by exactly
    1; the new apple is on a cell that held ['N'] in the state [s1] reached
    just before [generate_apple] was called; and the cell of the old apple
    holds ['S1'] and is the head. *)
Theorem food_consumption (stalled : bool) (s : SnakeBoard) (draws : list (Z * Z)) :
  reachable stalled s →
  on_board s (target s) → tagged s (target s) Apple →
  Forall (on_board s) draws →
  ∃ s1,
    move_snake (set_move_lock s false) (target s).1 (target s).2 = Ok (true, s1)
    ∧ (∀ p, on_board s p → tagged s1 p Nothing ↔ (p ∉ locations s) ∧ p ≠ target s)
    ∧ (Forall (λ p, p ∈ locations s ∨ p = target s) draws → next s draws = NoDraw)
    ∧ (Exists (λ p, (p ∉ locations s) ∧ p ≠ target s) draws →
       ∃ s' rest,
         generate_apple s1 draws = Ok (s', rest)
         ∧ next s draws = Ok (PyNone, s', rest)
         ∧ get_end s' = false
         ∧ get_length s' = get_length s + 1
         ∧ tagged s1 (get_apple s') Nothing
         ∧ tagged s' (get_apple s') Apple
         ∧ get_apple s' ≠ target s
         ∧ (get_apple s' ∉ locations s)
         ∧ tagged s' (target s) S1
         ∧ head s' = target s).
Proof.
  intros Hreach Hon_t HA Hon.
  destruct (next_eating stalled s draws Hreach Hon_t HA)
    as (s1 & Hmove & Hrun & Hinv1 & Hlen1 & Hhead1 & Hend1 & Hrow1 & Hcol1).
  pose proof (λ p, eating_tiles stalled s s1 p Hreach Hon_t HA Hmove) as Htiles.
  exists s1. split_and!; [done|done|by apply (next_eating_no_draw stalled)|].
  intros Hex.
  assert (Forall (on_board s1) draws) as Hon1.
  { unfold on_board. by rewrite Hrow1, Hcol1. }
  pose proof (inv_coherent s1 Hinv1) as Hc1.
  destruct (generate_apple_total s1 draws (coh_board s1 Hc1) Hon1) as (s' & rest & Hgen).
  { apply Exists_exists in Hex as (p & Hin & Hp). apply Exists_exists.
    exists p. split; [done|]. apply Htiles; [|done].
    by eapply Forall_forall in Hon. }
  destruct (Coherent_generate_apple s1 draws s' rest Hc1 Hon1 Hgen)
    as (_ & _ & Hlen' & Hhead' & _ & Hend' & _ & _ & _ & _ & Haon & HaN & HaA & _).
  pose proof (Inv_generate_apple s1 draws s' rest Hinv1 Hon1 Hgen) as Hinv'.
  pose proof (inv_head s' Hinv') as HS1. rewrite Hhead', Hhead1 in HS1.
  assert (on_board s (get_apple s')) as Haon0.
  { unfold on_board in *. by rewrite <- Hrow1, <- Hcol1. }
  destruct (proj1 (Htiles _ Haon0) HaN) as [Hoff Hnt].
  exists s', rest. split_and!; try done.
  - by rewrite Hrun, Hgen.
  - unfold get_end. congruence.
  - unfold get_length. congruence.
  - congruence.
Qed.

Lemma food_consumption_witness :
  tagged corner5 (target corner5) Apple
  ∧ cells_tagged corner5 Nothing = [(0, 0)]
  ∧ ((0, 0) ∈ get_path corner5)
  ∧ ∃ s1 s' rest,
      move_snake (set_move_lock corner5 false) (target corner5).1 (target corner5).2
      = Ok (true, s1)
      ∧ generate_apple s1 [(1, 1); (0, 0)] = Ok (s', rest)
      ∧ next corner5 [(1, 1); (0, 0)] = Ok (PyNone, s', rest)
      ∧ get_end s' = false
      ∧ get_length s' = get_length corner5 + 1
      ∧ tagged s1 (get_apple s') Nothing
      ∧ tagged s' (get_apple s') Apple
      ∧ get_apple s' ≠ target corner5
      ∧ (get_apple s' ∉ locations corner5)
      ∧ tagged s' (target corner5) S1
      ∧ head s' = target corner5.
Proof.
  split; [reflexivity|]. split; [reflexivity|].
  split; [change (get_path corner5) with [(0, 0); (0, 1); (1, 1)]; repeat constructor|].
  destruct (food_consumption false corner5 [(1, 1); (0, 0)] (proj1 corner_reachable))
    as (s1 & Hmove & _ & _ & Hret).
  - apply (proj1 (corner_cell_in_grid (1, 0))). repeat constructor.
  - reflexivity.
  - apply Forall_cons_2; [apply (proj1 (corner_cell_in_grid (1, 1))); repeat constructor|].
    apply Forall_cons_2; [apply (proj1 (corner_cell_in_grid (0, 0))); repeat constructor|].
    apply Forall_nil_2.
  - exists s1. destruct Hret as (s' & rest & H); [|exists s', rest; exact (conj Hmove H)].
    apply Exists_cons_tl, Exists_cons_hd.
    change (locations corner5) with [(0, 1); (1, 1)].
    change (target corner5) with (1, 0).
    split; [|discriminate].
    rewrite !elem_of_cons, elem_of_nil. intros [E|[E|[]]]; discriminate.
Defined.

(** C8, as stated, fails on a board that the snake and the apple fill: in
    [corner_full], a state of a running game on the 2 by 2 board, the snake
    has length 3 and the head moves onto the apple; no cell is left for the
    new apple, and the tick does not return, whatever is drawn. *)
Lemma food_consumption_counterexample :
  reachable false corner_full
  ∧ get_end corner_full = false
  ∧ get_length corner_full = 3
  ∧ on_board corner_full (target corner_full)
  ∧ tagged corner_full (target corner_full) Apple
  ∧ ∀ draws, Forall (on_board corner_full) draws → next corner_full draws = NoDraw.
Proof.
  split; [exact (proj2 corner_reachable)|].
  assert (on_board corner_full (target corner_full)) as Hon_t.
  { apply (proj1 (corner_cell_in_grid (0, 0))). repeat constructor. }
  split_and!; [reflexivity|reflexivity|done|reflexivity|].
  intros draws Hon.
  apply (next_eating_no_draw false); [exact (proj2 corner_reachable)|done|reflexivity|done|].
  apply Forall_forall. intros p Hp.
  pose proof (proj1 (Forall_forall _ _) Hon p Hp) as Hpon.
  apply (proj2 (corner_cell_in_grid p)) in Hpon.
  change (locations corner_full) with [(0, 1); (1, 1); (1, 0)].
  change (target corner_full) with (0, 0).
  rewrite !elem_of_cons in Hpon. rewrite !elem_of_cons. tauto.
Qed.

(** The scenario of the specification: on the 4 by 4 board, head at
    [(0, 0)], apple at [(0, 3)], direction right, three ticks bring the head
    to [(0, 3)] with length 2 and a new apple elsewhere. *)
Example three_ticks_to_the_apple :
  ∃ s', next game3 [(0, 3); (2, 2)] = Ok (PyNone, s', [])
        ∧ head s' = (0, 3) ∧ get_length s' = 2 ∧ get_apple s' = (2, 2)
        ∧ get_path s' = [(0, 2); (0, 3)]
        ∧ _board s' = [[Nothing; Nothing; S0; S1];
                       [Nothing; Nothing; Nothing; Nothing];
                       [Nothing; Nothing; Apple; Nothing];
                       [Nothing; Nothing; Nothing; Nothing]].
Proof. eexists. by vm_compute. Qed.

(** ** The path is a chain of neighbouring cells *)

Lemma chain_drop path (k : nat) : chain path → chain (drop k path).
Proof.
  intros Hch i p q Hp Hq. rewrite lookup_drop in Hp, Hq.
  apply (Hch (k + i)%nat); [done|]. by replace (S (k + i)) with (k + S i)%nat by lia.
Qed.

Lemma chain_snoc path p q :
  chain path → last path = Some p → adjacent p q → chain (path ++ [q]).
Proof.
  intros Hch Hlast Hadj i x y Hx Hy. rewrite last_lookup in Hlast.
  assert (S i < length (path ++ [q]))%nat as Hi by (by eapply lookup_lt_Some).
  rewrite length_app in Hi. simpl in Hi.
  destruct (decide (S i < length path)%nat) as [Hlt|Hge].
  - rewrite lookup_app_l in Hx, Hy by lia. by apply (Hch i).
  - assert (i = pred (length path)) as -> by lia.
    rewrite lookup_app_l in Hx by lia.
    rewrite lookup_app_r in Hy by lia.
    replace (S (pred (length path)) - length path)%nat with 0%nat in Hy by lia.
    simpl in Hy. congruence.
Qed.

Lemma target_adjacent s k : _snake_direction s = KEY_DICT k → adjacent (head s) (target s).
Proof. intros Hd. exists k. unfold target. by rewrite Hd. Qed.

Lemma reachable_chain stalled s :
  reachable stalled s → if stalled then True else chain (_snake s).
Proof.
  intros Hreach. induction Hreach as [row col draws s rest Hon Hinit
                 |stalled s k Hreach IH
                 |stalled s draws r s' rest Hreach IH Hon Hnext Hend'].
  - destruct (init_sound row col draws s rest Hon Hinit)
      as (_ & _ & _ & _ & _ & Hpath & _).
    rewrite Hpath. intros i p q _ Hq. by destruct i.
  - destruct (update_direction_fields s k) as (d & l & -> & _). exact IH.
  - destruct (direction_eqb (_snake_direction s) (0, 0)) eqn:E0; [done|].
    apply direction_eqb_neq in E0.
    destruct (decide (on_board s (target s))) as [Hon_t|Hoff]; last first.
    { rewrite next_collision in Hnext by auto. injection Hnext as <- <- <-. done. }
    destruct (decide (tagged s (target s) S0)) as [HS0|HS0].
    { rewrite next_collision in Hnext by auto. injection Hnext as <- <- <-. done. }
    destruct (next_advance stalled s draws r s' rest Hreach Hon Hnext Hon_t HS0)
      as (_ & _ & _ & Hpath & _).
    destruct (reachable_coherent stalled s Hreach) as (_ & Hc & _).
    destruct (reachable_direction stalled s Hreach) as [[? _]|[k Hk]]; [done|].
    rewrite Hpath. eapply chain_snoc.
    + destruct stalled.
      * destruct (reachable_invariant true s Hreach) as [_ Hst].
        rewrite (Coherent_locations_single s Hc (stl_length s Hst)).
        intros i p q _ Hq. by destruct i.
      * destruct (locations_drop s Hc) as [-> _]. by apply chain_drop.
    + by apply head_in_locations.
    + by eapply target_adjacent.
Qed.

(** X9.  In every state of a game whose most recent tick, if there was one,
    was taken with a direction, each entry of the path is a neighbour of the
    entry before it, one step of an arrow key away; so are the cells of the
    snake, from the tail to the head. *)
Theorem path_is_a_chain (s : SnakeBoard) :
  reachable false s → chain (get_path s) ∧ chain (locations s).
Proof.
  intros Hreach. pose proof (reachable_chain false s Hreach) as Hch.
  destruct (reachable_coherent false s Hreach) as (_ & Hc & _).
  split; [done|]. destruct (locations_drop s Hc) as [-> _]. by apply chain_drop.
Qed.

Lemma path_is_a_chain_witness : chain (get_path game3) ∧ chain (locations game3).
Proof. exact (path_is_a_chain game3 game3_reachable). Defined.

(** ** No way back *)

(** X10.  After a tick of a game taken with a direction, whatever keys are
    pressed before the next tick, the cell that the head will move to is not
    the cell it has just left: the snake cannot be turned back onto its
    neck. *)
Theorem no_turning_back (stalled : bool) (s s1 : SnakeBoard)
    (draws rest : list (Z * Z)) (events : list key) :
  reachable stalled s → get_direction s ≠ (0, 0) → Forall (on_board s) draws →
  next s draws = Ok (PyNone, s1, rest) →
  head (handle_events s1 events) = target s
  ∧ target (handle_events s1 events) ≠ head s.
Proof.
  intros Hreach Hdir Hon Hnext.
  destruct (reachable_direction stalled s Hreach) as [[? _]|[k0 Hk0]]; [done|].
  destruct (next_fields s draws _ s1 rest Hnext) as (Hl1 & Hd1 & _).
  assert (on_board s (target s) ∧ ¬ tagged s (target s) S0) as [Hon_t HS0].
  { destruct (decide (on_board s (target s))) as [?|Hoff]; last first.
    { rewrite next_collision in Hnext by auto. done. }
    destruct (decide (tagged s (target s) S0)) as [?|?]; [|done].
    rewrite next_collision in Hnext by auto. done. }
  destruct (next_advance stalled s draws _ s1 rest Hreach Hon Hnext Hon_t HS0)
    as (_ & _ & Hhead & _).
  rewrite Hk0 in Hd1. rewrite (handle_events_turn s1 k0 events Hd1 Hl1).
  unfold target in *. unfold head in *. rewrite Hk0 in *. injection Hhead as Hr Hc.
  destruct (find _ events) as [k|] eqn:Hfind.
  - apply find_some in Hfind as [_ Hq]. simpl. rewrite Hr, Hc. split; [done|].
    destruct k0, k; simpl in *; try discriminate; intros [= ? ?]; lia.
  - rewrite Hd1, Hr, Hc. split; [done|]. destruct k0; simpl; intros [= ? ?]; lia.
Qed.

Lemma no_turning_back_witness :
  get_direction game2 ≠ (0, 0)
  ∧ head (handle_events game3 [K_LEFT; K_UP; K_LEFT]) = target game2
  ∧ target (handle_events game3 [K_LEFT; K_UP; K_LEFT]) ≠ head game2.
Proof.
  assert (get_direction game2 ≠ (0, 0)) as H by (by vm_compute).
  split; [exact H|].
  exact (no_turning_back false game2 game3 [] [] [K_LEFT; K_UP; K_LEFT]
           game2_reachable H (Forall_nil_2 _) eq_refl).
Defined.

(** ** The loop of [main] *)

Lemma next_dims s draws r s' rest :
  next s draws = Ok (r, s', rest) → _row s' = _row s ∧ _col s' = _col s.
Proof.
  unfold next. intros H.
  destruct (negb _ || negb _); [by injection H as <- <- <-|].
  apply bind_Ok in H as (t & _ & H).
  destruct (tile_eqb t S0); [by injection H as <- <- <-|].
  apply bind_Ok in H as ([ate s1] & Hmove & H).
  assert (_row s1 = _row s ∧ _col s1 = _col s) as [Hr Hc].
  { unfold move_snake in Hmove. inv_bind Hmove. by injection Hmove as <- <-. }
  destruct ate; [|by injection H as <- <- <-].
  apply bind_Ok in H as ([s2 rest2] & Hgen & [= <- <- <-]).
  unfold generate_apple in Hgen. apply bind_Ok in Hgen as ([[ar ac] rest'] & _ & Hgen).
  inv_bind Hgen. by injection Hgen as <- <-.
Qed.

Lemma next_rest (P : Z * Z → Prop) s draws r s' rest :
  Forall P draws → next s draws = Ok (r, s', rest) → Forall P rest.
Proof.
  unfold next. intros HP H.
  destruct (negb _ || negb _); [by injection H as <- <- <-|].
  apply bind_Ok in H as (t & _ & H).
  destruct (tile_eqb t S0); [by injection H as <- <- <-|].
  apply bind_Ok in H as ([ate s1] & _ & H).
  destruct ate; [|by injection H as <- <- <-].
  apply bind_Ok in H as ([s2 rest2] & Hgen & [= <- <- <-]).
  unfold generate_apple in Hgen. apply bind_Ok in Hgen as ([[ar ac] rest'] & Hloop & Hgen).
  inv_bind Hgen. injection Hgen as _ <-.
  apply generate_apple_loop_sound in Hloop as (_ & _ & pre & ->).
  apply Forall_app in HP as [_ HP]. by apply Forall_cons in HP as [_ HP].
Qed.

Lemma handle_events_reachable stalled s events :
  reachable stalled s → reachable stalled (handle_events s events).
Proof.
  revert s. induction events as [|k events IH]; intros s Hreach; [done|].
  apply IH. by apply reach_direction.
Qed.

Lemma handle_events_fields s events :
  _row (handle_events s events) = _row s ∧ _col (handle_events s events) = _col s
  ∧ _end (handle_events s events) = _end s
  ∧ (_snake_direction (handle_events s events) = (0, 0) → _snake_direction s = (0, 0)).
Proof.
  revert s. induction events as [|k events IH]; intros s; [done|].
  destruct (IH (update_direction s (KEY_DICT k))) as (Hr & Hc & He & Hd).
  destruct (update_direction_fields s k) as (d & l & Heq & Hzero).
  change (handle_events s (k :: events))
    with (handle_events (update_direction s (KEY_DICT k)) events).
  rewrite Hr, Hc, He. rewrite Heq in *. simpl in *. split_and!; auto.
Qed.

(** What holds of the board each time the loop of [main] comes back to its
    test: it is a state of a game whose ticks were all taken with a
    direction. *)
Lemma game_loop_invariant float_pow frames board delay score draws
    finished board' delay' score' rest :
  reachable false board → _snake_direction board ≠ (0, 0) →
  _row board = ROW → _col board = COLUMN →
  Forall (in_grid ROW COLUMN) draws →
  game_loop float_pow frames board delay score draws
  = Ok (finished, board', delay', score', rest) →
  get_end board' = finished
  ∧ if finished
    then ∃ s0, reachable false s0 ∧ _snake_direction s0 ≠ (0, 0)
               ∧ (¬ on_board s0 (target s0) ∨ tagged s0 (target s0) S0)
               ∧ board' = set_end (set_move_lock s0 false) true
    else reachable false board' ∧ _snake_direction board' ≠ (0, 0).
Proof.
  revert board delay score draws.
  induction frames as [|events frames IH]; intros board delay score draws
    Hreach Hdir Hrow Hcol Hdraws Hloop.
  - simpl in Hloop.
    destruct (reachable_coherent false board Hreach) as (Hend & _).
    unfold get_end in *. rewrite Hend in Hloop. injection Hloop as <- <- <- <- <-.
    by rewrite Hend.
  - simpl in Hloop.
    destruct (reachable_coherent false board Hreach) as (Hend & _).
    unfold get_end in Hloop. rewrite Hend in Hloop.
    apply bind_Ok in Hloop as (score1 & _ & Hloop).
    apply bind_Ok in Hloop as (delay1 & _ & Hloop).
    apply bind_Ok in Hloop as ([[r board2] draws2] & Hnext & Hloop).
    set (board1 := handle_events board events) in *.
    pose proof (handle_events_reachable false board events Hreach) as Hreach1.
    destruct (handle_events_fields board events) as (Hr1 & Hc1 & _ & Hzero).
    fold board1 in Hreach1, Hr1, Hc1, Hzero.
    assert (_snake_direction board1 ≠ (0, 0)) as Hdir1 by auto.
    assert (Forall (on_board board1) draws) as Hon1.
    { unfold on_board. by rewrite Hr1, Hc1, Hrow, Hcol. }
    destruct (next_dims _ _ _ _ _ Hnext) as [Hr2 Hc2].
    pose proof (next_rest _ _ _ _ _ _ Hdraws Hnext) as Hdraws2.
    destruct (next_fields _ _ _ _ _ Hnext) as (_ & Hd2 & _).
    destruct (_end board2) eqn:Hend2.
    + (* the tick ended the game: the loop stops at its next test *)
      assert (game_loop float_pow frames board2 delay1 score1 draws2
              = Ok (true, board2, delay1, score1, draws2)) as Hstop.
      { destruct frames; simpl; unfold get_end; by rewrite Hend2. }
      rewrite Hstop in Hloop. injection Hloop as <- <- <- <- <-.
      split; [done|]. exists board1. split; [done|]. split; [done|].
      destruct (decide (on_board board1 (target board1))) as [Hon_t|Hoff]; last first.
      { rewrite next_collision in Hnext by auto. injection Hnext as <- <- <-. auto. }
      destruct (decide (tagged board1 (target board1) S0)) as [HS0|HS0].
      { rewrite next_collision in Hnext by auto. injection Hnext as <- <- <-. auto. }
      destruct (next_advance false board1 draws r board2 draws2 Hreach1 Hon1 Hnext Hon_t HS0)
        as (_ & He & _). congruence.
    + (* the game goes on *)
      apply (IH board2 delay1 score1 draws2); try done; try congruence.
      pose proof (reach_next false board1 draws r board2 draws2 Hreach1 Hon1 Hnext Hend2)
        as Hreach2.
      apply direction_eqb_neq in Hdir1. by rewrite Hdir1 in Hreach2.
Qed.

Lemma wait_for_key_spec board frames board1 frames1 :
  wait_for_key board frames = Some (board1, frames1) →
  ∃ k events, board1 = handle_events board (k :: events).
Proof.
  induction frames as [|[|k events] frames IH]; simpl; intros H; [done|auto|].
  injection H as <- <-. eauto.
Qed.

Lemma init_rest (P : Z * Z → Prop) row col draws s rest :
  Forall P draws → SnakeBoard_init row col draws = Ok (s, rest) → Forall P rest.
Proof.
  intros HP Hinit. unfold SnakeBoard_init in Hinit.
  destruct ((row <? 2) || (col <? 2)); [done|].
  destruct draws as [|[hr hc] draws0]; [done|].
  apply bind_Ok in Hinit as (b1 & _ & Hinit).
  apply bind_Ok in Hinit as ([s1 rest1] & Hgen & [= _ <-]).
  unfold generate_apple in Hgen.
  apply bind_Ok in Hgen as ([[ar ac] rest'] & Hloop & Hgen).
  inv_bind Hgen. injection Hgen as _ <-.
  apply generate_apple_loop_sound in Hloop as (_ & _ & pre & ->).
  apply Forall_cons in HP as [_ HP].
  apply Forall_app in HP as [_ HP]. by apply Forall_cons in HP as [_ ?].
Qed.

(** X11.  [main] never takes a tick before a direction is set: while its
    loop runs, the board is a state of a game whose ticks were all taken with
    a direction, so that the representation invariant of the snake holds at
    every turn of the loop.  When the loop is left by [break], the board is
    such a state whose head was about to leave the board or to run into
    ['S0'], with the flag [_end] set and the lock clear and nothing else
    changed; the score printed is the length of that state minus 1. *)
Theorem main_never_stalls (float_pow : float → Z → float)
    (frames : list (list key)) (draws rest : list (Z * Z))
    (finished : bool) (board : SnakeBoard) (delay : Z) (score : list Z) :
  Forall (in_grid ROW COLUMN) draws →
  main float_pow frames draws = Ok (finished, board, delay, score, rest) →
  get_end board = finished
  ∧ if finished
    then ∃ s0, reachable false s0 ∧ get_direction s0 ≠ (0, 0)
               ∧ (¬ on_board s0 (target s0) ∨ tagged s0 (target s0) S0)
               ∧ board = set_end (set_move_lock s0 false) true
               ∧ final_score board = final_score s0
    else reachable false board.
Proof.
  intros Hdraws Hmain. unfold main in Hmain.
  apply bind_Ok in Hmain as ([board0 draws1] & Hinit & Hmain).
  pose proof (reach_init _ _ _ _ _ Hdraws Hinit) as Hreach0.
  destruct (init_sound _ _ _ _ _ Hdraws Hinit)
    as (_ & _ & Hrow & Hcol & _ & _ & _ & Hd0 & Hl0 & Hend0 & _).
  destruct (wait_for_key board0 frames) as [[board1 frames1]|] eqn:Hwait.
  - destruct (wait_for_key_spec _ _ _ _ Hwait) as (k & events & ->).
    pose proof (init_rest _ _ _ _ _ _ Hdraws Hinit) as Hdraws1.
    destruct (handle_events_fields board0 (k :: events)) as (Hr1 & Hc1 & _ & _).
    assert (_snake_direction (handle_events board0 (k :: events)) ≠ (0, 0)) as Hdir1.
    { change (handle_events board0 (k :: events))
        with (handle_events (update_direction board0 (KEY_DICT k)) events).
      intros E. apply handle_events_fields in E.
      rewrite update_direction_first_key in E by done. by destruct k. }
    destruct (game_loop_invariant float_pow frames1 _ _ _ _ _ _ _ _ _
                (handle_events_reachable false board0 (k :: events) Hreach0) Hdir1
                ltac:(congruence) ltac:(congruence) Hdraws1 Hmain) as [Hfin Hres].
    split; [done|]. destruct finished; [|by destruct Hres].
    destruct Hres as (s0 & ? & ? & ? & ->). exists s0. by split_and!.
  - injection Hmain as <- <- <- <- <-. by split.
Qed.

Lemma main_run_result :
  main float_pow_by_products main_frames main_draws
  = Ok (true, main_board, 361, [2; 2], [(0, 0)]).
Proof. vm_compute. reflexivity. Qed.

Lemma main_draws_in_grid : Forall (in_grid ROW COLUMN) main_draws.
Proof. concrete_cells. Qed.

Lemma main_never_stalls_witness :
  get_end main_board = true
  ∧ ∃ s0, reachable false s0 ∧ get_direction s0 ≠ (0, 0)
          ∧ (¬ on_board s0 (target s0) ∨ tagged s0 (target s0) S0)
          ∧ main_board = set_end (set_move_lock s0 false) true
          ∧ final_score main_board = final_score s0.
Proof.
  exact (main_never_stalls float_pow_by_products main_frames main_draws [(0, 0)]
           true main_board 361 [2; 2] main_draws_in_grid main_run_result).
Defined.

(** ** Which draws the construction takes *)

(** X12.  [SnakeBoard(row, col)] puts the head on the first draw and the apple
    on the first later draw that is not the head: the draws between the two
    all repeat the position of the head, and the draws after the apple are
    left. *)
Theorem construction_draws (row col : Z) (h : Z * Z) (draws1 rest : list (Z * Z))
    (s : SnakeBoard) :
  Forall (in_grid row col) (h :: draws1) →
  SnakeBoard_init row col (h :: draws1) = Ok (s, rest) →
  head s = h
  ∧ get_apple s ≠ h
  ∧ ∃ skipped, draws1 = skipped ++ get_apple s :: rest ∧ Forall (λ p, p = h) skipped.
Proof.
  intros Hon Hinit. pose proof Hinit as Hinit0.
  destruct (init_sound _ _ _ _ _ Hon Hinit)
    as (Hrow & Hcol & _ & _ & _ & _ & _ & _ & _ & _ & _ & _ & _).
  destruct (init_cells _ _ _ _ _ Hon Hinit) as (_ & _ & _ & _ & Hne).
  apply Forall_cons in Hon as [Hh Hon1].
  unfold SnakeBoard_init in Hinit0.
  destruct ((row <? 2) || (col <? 2)); [done|]. destruct h as [hr hc].
  destruct (first_state_spec row col (hr, hc) Hrow Hcol Hh) as (b1 & Hset & _ & Hget).
  simpl in Hset. rewrite Hset in Hinit0. cbn [bind] in Hinit0.
  apply bind_Ok in Hinit0 as ([s1 rest1] & Hgen & [= <- <-]).
  unfold generate_apple in Hgen.
  apply bind_Ok in Hgen as ([[ar ac] rest'] & Hloop & Hgen).
  apply bind_Ok in Hgen as (b2 & _ & [= <- <-]). simpl in Hloop.
  destruct (generate_apple_loop_first _ _ _ _ _ Hloop) as (skipped & Hdraws & Hskipped).
  split; [done|]. split; [exact Hne|]. exists skipped. split; [done|].
  rewrite Hdraws in Hon1. apply Forall_app in Hon1 as [Hon_sk _].
  apply Forall_forall. intros p Hp.
  pose proof (proj1 (Forall_forall _ _) Hon_sk p Hp) as Hpon.
  pose proof (proj1 (Forall_forall _ _) Hskipped p Hp) as HpN. simpl in HpN.
  rewrite (Hget p Hpon) in HpN. by case_decide.
Qed.

Lemma construction_draws_witness :
  head game0 = (0, 0)
  ∧ get_apple game0 ≠ (0, 0)
  ∧ ∃ skipped, [(0, 0); (0, 3)] = skipped ++ get_apple game0 :: []
               ∧ Forall (λ p, p = (0, 0)) skipped.
Proof.
  exact (construction_draws 4 4 (0, 0) [(0, 0); (0, 3)] [] game0
           game_draws_in_grid game0_init).
Defined.

(** ** [next] does not look at the flag [_end] *)

Lemma move_snake_set_end s e r c :
  move_snake (set_end s e) r c =
    match move_snake s r c with
    | Ok (ate, s') => Ok (ate, set_end s' e)
    | Raise x => Raise x
    | NoDraw => NoDraw
    end.
Proof.
  unfold move_snake. simpl.
  destruct (board_set (_board s) (_snake_row s) (_snake_col s) Nothing); simpl; [|done..].
  destruct (if _ >? _ then _ else _); simpl; [|done..].
  destruct (board_get _ r c); simpl; [|done..].
  destruct (board_set _ r c S1); simpl; [|done..].
  destruct (for_each (tag_segment _) _ _); simpl; [|done..].
  destruct (for_each (clear_old _) _ _); simpl; done.
Qed.

Lemma generate_apple_set_end s e draws :
  generate_apple (set_end s e) draws =
    match generate_apple s draws with
    | Ok (s', rest) => Ok (set_end s' e, rest)
    | Raise x => Raise x
    | NoDraw => NoDraw
    end.
Proof.
  unfold generate_apple. simpl.
  destruct (generate_apple_loop (_board s) draws) as [[[ar ac] rest]| |]; simpl; [|done..].
  destruct (board_set (_board s) ar ac Apple); simpl; done.
Qed.

(** X13.  [next] never reads the flag [_end]: called on a board whose game
    has ended, it moves the snake as it does on a running board.  The two
    results differ in the flag only, which is set on a collision and is
    otherwise the one the call was given. *)
Theorem next_ignores_end (s : SnakeBoard) (e : bool) (draws : list (Z * Z)) :
  next (set_end s e) draws =
    match next s draws with
    | Ok (r, s', rest) =>
        Ok (r, set_end s' (match r with PyBool true => true | _ => e end), rest)
    | Raise x => Raise x
    | NoDraw => NoDraw
    end.
Proof.
  unfold next.
  cbn [_snake_row _snake_col _snake_direction _row _col _board set_move_lock set_end].
  destruct (negb _ || negb _); [done|].
  destruct (board_get _ _ _) as [t| |]; simpl; [|done..].
  destruct (tile_eqb t S0); [done|].
  change (set_move_lock (set_end s e) false) with (set_end (set_move_lock s false) e).
  rewrite move_snake_set_end.
  destruct (move_snake (set_move_lock s false) _ _) as [[ate s1]| |]; simpl; [|done..].
  destruct ate; [|done]. rewrite generate_apple_set_end.
  by destruct (generate_apple s1 draws) as [[s2 rest]| |].
Qed.

(** A tick after the end of the game: the snake of [game3], flag set, still
    eats the apple. *)
Example next_after_the_end :
  ∃ s', next (set_end game3 true) [(2, 2)] = Ok (PyNone, s', [])
        ∧ get_end s' = true ∧ head s' = (0, 3) ∧ get_length s' = 2.
Proof. eexists. by vm_compute. Qed.

(** ** [__str__] *)

Lemma string_app_nil (a : string) : EmptyString +:+ a = a.
Proof. reflexivity. Qed.

Lemma string_app_cons x (a b : string) : String x a +:+ b = String x (a +:+ b).
Proof. reflexivity. Qed.

Lemma string_app_nil_r (a : string) : a +:+ EmptyString = a.
Proof.
  induction a as [|x a IH]; [done|]. by rewrite string_app_cons, IH.
Qed.

Lemma string_app_assoc (a b c : string) : (a +:+ b) +:+ c = a +:+ (b +:+ c).
Proof.
  induction a as [|x a IH]; [done|]. by rewrite !string_app_cons, IH.
Qed.

(** Exposes the leading characters of both sides of an equation between
    printed rows. *)
Ltac str_heads H :=
  unfold tab, newline in H; simpl in H;
  rewrite ?string_app_cons, ?string_app_nil in H.

Lemma str_rows_acc b acc : str_rows b acc = acc +:+ str_rows b EmptyString.
Proof.
  unfold str_rows. revert acc. induction b as [|line b IH]; intros acc; simpl.
  - by rewrite string_app_nil_r.
  - rewrite IH. rewrite (IH ((EmptyString +:+ join_line line) +:+ newline)).
    by rewrite string_app_nil, !string_app_assoc.
Qed.

Lemma str_rows_cons line b :
  str_rows (line :: b) EmptyString
  = join_line line +:+ (newline +:+ str_rows b EmptyString).
Proof.
  unfold str_rows at 1. simpl.
  fold (str_rows b ((EmptyString +:+ join_line line) +:+ newline)).
  by rewrite str_rows_acc, string_app_nil, string_app_assoc.
Qed.

Lemma join_line_one t : join_line [t] = tile_str t.
Proof. done. Qed.

Lemma join_line_cons t t' line :
  join_line (t :: t' :: line) = tile_str t +:+ (tab +:+ join_line (t' :: line)).
Proof. done. Qed.

(** A printed row followed by a newline never starts like a longer or
    different row: the row and what follows it can be read back. *)
Lemma join_line_inj line1 line2 x y :
  join_line line1 +:+ (newline +:+ x) = join_line line2 +:+ (newline +:+ y) →
  line1 = line2 ∧ x = y.
Proof.
  revert line2. induction line1 as [|t1 line1 IH]; intros line2 H.
  - destruct line2 as [|t2 [|t2' line2]].
    + str_heads H. by injection H.
    + rewrite join_line_one in H. destruct t2; str_heads H; discriminate.
    + rewrite join_line_cons in H. destruct t2; str_heads H; discriminate.
  - destruct line2 as [|t2 line2].
    + destruct line1 as [|t1' line1].
      * rewrite join_line_one in H. destruct t1; str_heads H; discriminate.
      * rewrite join_line_cons in H. destruct t1; str_heads H; discriminate.
    + destruct line1 as [|t1' line1], line2 as [|t2' line2].
      * rewrite !join_line_one in H.
        destruct t1, t2; str_heads H; try discriminate; by injection H as ->.
      * rewrite join_line_one, join_line_cons in H.
        remember (join_line (t2' :: line2)) as l2.
        destruct t1, t2; str_heads H; discriminate.
      * rewrite join_line_one, join_line_cons in H.
        remember (join_line (t1' :: line1)) as l1.
        destruct t1, t2; str_heads H; discriminate.
      * rewrite !join_line_cons, !string_app_assoc in H.
        remember (join_line (t1' :: line1)) as l1.
        remember (join_line (t2' :: line2)) as l2.
        assert (t1 = t2 ∧ l1 +:+ (newline +:+ x) = l2 +:+ (newline +:+ y)) as [-> H'].
        { destruct t1, t2; str_heads H; try discriminate; by injection H. }
        subst l1 l2. destruct (IH _ H') as [Hl ->]. by rewrite Hl.
Qed.

(** X14.  The string that [__str__] returns determines the board: two
    boards, whatever their sizes, that print the same are the same list of
    rows. *)
Theorem str_injective (s1 s2 : SnakeBoard) :
  SnakeBoard_str s1 = SnakeBoard_str s2 → _board s1 = _board s2.
Proof.
  unfold SnakeBoard_str. generalize (_board s1) (_board s2). clear s1 s2.
  intros b1. induction b1 as [|line1 b1 IH]; intros b2 H.
  - destruct b2 as [|line2 b2]; [done|]. rewrite str_rows_cons in H.
    destruct line2 as [|t [|t' line2]].
    + str_heads H. discriminate.
    + rewrite join_line_one in H. destruct t; str_heads H; discriminate.
    + rewrite join_line_cons in H. destruct t; str_heads H; discriminate.
  - destruct b2 as [|line2 b2].
    + rewrite str_rows_cons in H. destruct line1 as [|t [|t' line1]].
      * str_heads H. discriminate.
      * rewrite join_line_one in H. destruct t; str_heads H; discriminate.
      * rewrite join_line_cons in H. destruct t; str_heads H; discriminate.
    + rewrite !str_rows_cons in H. apply join_line_inj in H as [-> H].
      by rewrite (IH _ H).
Qed.

Lemma str_injective_witness :
  SnakeBoard_str (set_move_lock game3 true) = SnakeBoard_str game3
  ∧ _board (set_move_lock game3 true) = _board game3.
Proof.
  split; [by vm_compute|].
  apply (str_injective (set_move_lock game3 true) game3). by vm_compute.
Defined.

(** The board of [game3] as [__str__] gives it: four lines, the tiles of
    each joined by tabs. *)
Example str_of_game3 :
  SnakeBoard_str game3
  = ("N" +:+ tab +:+ "N" +:+ tab +:+ "S1" +:+ tab +:+ "A" +:+ newline)
    +:+ ("N" +:+ tab +:+ "N" +:+ tab +:+ "N" +:+ tab +:+ "N" +:+ newline)
    +:+ ("N" +:+ tab +:+ "N" +:+ tab +:+ "N" +:+ tab +:+ "N" +:+ newline)
    +:+ ("N" +:+ tab +:+ "N" +:+ tab +:+ "N" +:+ tab +:+ "N" +:+ newline).
Proof. by vm_compute. Qed.
